(** * NHK Easy Practice With WaniKani: a shallow embedding of the user script

    The script (version 0.3) hides furigana on a page for the words the
    reader already knows on WaniKani.  It has four parts, embedded below in
    the order in which their proofs come:

    - [Dictionary]: the rewrite of the ruby markup held as text in the
      pop-up dictionary ([findRubyInDictionary]);
    - [Dom]: the walk over the ruby elements of the page ([findRubyInPage],
      [getTextWithoutRuby]);
    - [WaniKani]: the two nested pagination loops ([getAssignments],
      [lookupSubjectIds], [lookupVocab], [addVocabFromSubjects]);
    - [Credential]: the resolution of the API token ([getApiToken]).

    JavaScript strings are embedded as [string]; a string literal with
    Japanese text stands for its UTF-8 bytes.  Two JavaScript strings are
    equal exactly when their UTF-8 bytes are, and the byte of [<] never
    occurs inside the encoding of another character, so membership in a
    [Set] and the character class of the regular expression are the same on
    both representations.

    The definitions come first, each module holding the embedding of its
    part of the script and then the vocabulary of the statements made about
    it; the properties follow. *)

From Stdlib Require Import Ascii String ZArith DecimalString.
From stdpp Require Import gmap strings list.

Set Warnings "-clear-no-such-hyp".

(** How a call ends: it returns, or it throws (every exception met in this
    script is a [TypeError] raised by a property access on [null] or
    [undefined]). *)
Inductive completion := Normal | TypeError.

(** How the promise of an [async] function ends: fulfilled with a value,
    rejected by an exception thrown in its body, or still pending because
    an awaited operation has not answered. *)
Inductive promise (A : Type) :=
| Fulfilled (a : A)
| Rejected
| Pending.
Arguments Fulfilled {A} a.
Arguments Rejected {A}.
Arguments Pending {A}.

(** A string is truthy unless it is empty. *)
Definition truthy (s : string) : bool := negb (String.eqb s "").

(** A [GET] request: its URL, and the value from which the script builds
    its [Authorization] header. *)
Record request := Request {
  url : string;
  authorization : string
}.

(** The set of known vocabulary, a JavaScript [Set] of strings of which the
    suppression code only calls [has]. *)
Definition has (knownVocab : gset string) (word : string) : bool :=
  bool_decide (word ∈ knownVocab).

(* ===================================================================== *)
(** ** The embedded-markup strategy *)
(* ===================================================================== *)

Module Dictionary.

(** [strip_prefix lit s] consumes the literal [lit] at the start of [s]. *)
Fixpoint strip_prefix (lit s : string) : option string :=
  match lit with
  | EmptyString => Some s
  | String a lit' =>
      match s with
      | EmptyString => None
      | String b s' => if Ascii.eqb a b then strip_prefix lit' s' else None
      end
  end.

(** The class [[^<]] under a star: the longest run of characters other
    than [<], and what follows it.  The star is greedy, and what comes
    after it in the pattern always starts with [<], so no shorter run can
    lead to a match: the backtracking of the regular expression engine
    never succeeds where this fails. *)
Fixpoint span_not_lt (s : string) : string * string :=
  match s with
  | EmptyString => (EmptyString, EmptyString)
  | String c s' =>
      if Ascii.eqb c "<" then (EmptyString, s)
      else let '(run, rest) := span_not_lt s' in (String c run, rest)
  end.

Definition ruby_open : string := "<ruby><rb>".
Definition ruby_middle : string := "</rb><rt>".
Definition ruby_close : string := "</rt></ruby>".

(** The text [<ruby><rb>word</rb><rt>reading</rt></ruby>]. *)
Definition ruby_markup (word reading : string) : string :=
  ruby_open +:+ word +:+ ruby_middle +:+ reading +:+ ruby_close.

(** No character of [s] is [<]: the texts that the class under the star
    accepts whole. *)
Fixpoint no_lt (s : string) : bool :=
  match s with
  | EmptyString => true
  | String c s' => negb (Ascii.eqb c "<") && no_lt s'
  end.

(** No non-empty end of the literal [lit] starts the text [t]. *)
Fixpoint no_border (lit t : string) : bool :=
  match lit with
  | EmptyString => true
  | String _ lit' =>
      match strip_prefix lit t with
      | Some _ => false
      | None => no_border lit' t
      end
  end.

(** [rubyElementMatcherExp] anchored at the start of [s]: the literal
    [<ruby><rb>], a captured run of the class, the literal [</rb><rt>], a
    second run of the class, the literal [</rt></ruby>].  The result is the
    matched text, the captured group and the text after the match. *)
Definition rubyElementMatcherExp (s : string)
  : option (string * string * string) :=
  match strip_prefix ruby_open s with
  | None => None
  | Some s1 =>
      let '(word, s2) := span_not_lt s1 in
      match strip_prefix ruby_middle s2 with
      | None => None
      | Some s3 =>
          let '(reading, s4) := span_not_lt s3 in
          match strip_prefix ruby_close s4 with
          | None => None
          | Some rest => Some (ruby_markup word reading, word, rest)
          end
      end
  end.

(** [String.prototype.replaceAll] with a global regular expression and a
    replacer function: the matches are searched from left to right, each
    search resuming where the previous match ended; the text between
    matches is copied.  A match of this pattern is never empty, so every
    step consumes at least one character and [fuel] above the length of the
    text is never exhausted. *)
Fixpoint replaceAll_loop (fuel : nat) (replacer : string → string → string)
    (s : string) : string :=
  match fuel with
  | 0 => s
  | S fuel' =>
      match rubyElementMatcherExp s with
      | Some (rubyElement, word, rest) =>
          replacer rubyElement word +:+ replaceAll_loop fuel' replacer rest
      | None =>
          match s with
          | EmptyString => EmptyString
          | String c s' => String c (replaceAll_loop fuel' replacer s')
          end
      end
  end.

Definition replaceAll (replacer : string → string → string) (s : string)
  : string :=
  replaceAll_loop (S (String.length s)) replacer s.

(** The arrow function
    [(rubyElement, word) => knownVocab.has(word) ? word : rubyElement]. *)
Definition replacer (knownVocab : gset string) (rubyElement word : string)
  : string :=
  if has knownVocab word then word else rubyElement.

(** The right-hand side of the assignment to [entryValues.def]. *)
Definition rewrite_def (knownVocab : gset string) (def : string) : string :=
  replaceAll (replacer knownVocab) def.

(** An entry of the dictionary: its definition text, and the fields that the
    script does not read. *)
Record entryValues := EntryValues {
  def : string;
  other_fields : list (string * string)
}.

(** [g_dic.reikai.entries]: an object from entry keys to arrays of entries.
    [findRubyInDictionary] assigns to the [def] of every entry of every
    key. *)
Definition findRubyInDictionary (knownVocab : gset string)
    (entries : gmap string (list entryValues))
  : gmap string (list entryValues) :=
  (λ values : list entryValues,
     map (λ e, EntryValues (rewrite_def knownVocab (def e)) (other_fields e))
       values) <$> entries.

(** *** Vocabulary of the statements *)

(** A text with a ruby pattern inside the base form of another. *)
Definition nested_markup : string :=
  "<ruby><rb><ruby><rb>日</rb><rt>に</rt></ruby></rb><rt>ひ</rt></ruby>".

(** A definition text in which every [<] belongs to a ruby pattern: plain
    characters and whole occurrences of the pattern, one after the other. *)
Inductive clean_markup : string → Prop :=
| clean_empty : clean_markup EmptyString
| clean_char c s :
    c ≠ "<"%char → clean_markup s → clean_markup (String c s)
| clean_ruby word reading s :
    no_lt word = true → no_lt reading = true → clean_markup s →
    clean_markup (ruby_markup word reading +:+ s).

(** The same, where moreover no pattern has a known base form. *)
Inductive settled (knownVocab : gset string) : string → Prop :=
| settled_empty : settled knownVocab EmptyString
| settled_char c s :
    c ≠ "<"%char → settled knownVocab s → settled knownVocab (String c s)
| settled_ruby word reading s :
    no_lt word = true → no_lt reading = true → word ∉ knownVocab →
    settled knownVocab s →
    settled knownVocab (ruby_markup word reading +:+ s).

End Dictionary.

(* ===================================================================== *)
(** ** The live-DOM strategy *)
(* ===================================================================== *)

Module Dom.

(** A node of the page: a text node, a comment, or an element with its
    [nodeName] and [childNodes].  Elements are those of the HTML namespace,
    whose [nodeName] is the tag name in upper case. *)
#[warnings="-register-all"]
Inductive node :=
| Text (data : string)
| Comment (data : string)
| Element (name : string) (children : list node).

Definition ELEMENT_NODE : Z := 1.
Definition TEXT_NODE : Z := 3.
Definition COMMENT_NODE : Z := 8.

Definition nodeType (n : node) : Z :=
  match n with
  | Text _ => TEXT_NODE
  | Comment _ => COMMENT_NODE
  | Element _ _ => ELEMENT_NODE
  end.

Definition nodeName (n : node) : string :=
  match n with
  | Text _ => "#text"
  | Comment _ => "#comment"
  | Element name _ => name
  end.

Definition childNodes (n : node) : list node :=
  match n with
  | Element _ children => children
  | _ => []
  end.

(** What a node adds to the [textContent] of an element above it: the data
    of the text nodes, in tree order; comments add nothing. *)
Fixpoint descendant_text (n : node) : string :=
  match n with
  | Text data => data
  | Comment _ => EmptyString
  | Element _ children => String.concat "" (map descendant_text children)
  end.

(** [textContent] of the node itself: a comment gives its own data. *)
Definition textContent (n : node) : string :=
  match n with
  | Comment data => data
  | _ => descendant_text n
  end.

(** [getTextWithoutRuby]: [reduce] over the child nodes, from the empty
    string. *)
Definition getTextWithoutRuby (rubyElement : node) : string :=
  fold_left
    (λ result childNode,
       result +:+
       (if (nodeType childNode =? TEXT_NODE)%Z
           || negb (String.eqb (nodeName childNode) "RT")
        then textContent childNode
        else EmptyString))
    (childNodes rubyElement) EmptyString.

(** The identity of a node is its place in the tree: the child indices from
    the document down to it.  A reference to an element, as the script
    holds it, is that place together with the node found there. *)
Abbreviation path := (list nat).
Abbreviation element := (path * node)%type.

Section Numbered.
Context {A : Type} (f : nat → node → list A).

(** [f] on each node of a list of siblings, with its index. *)
Fixpoint numbered (i : nat) (siblings : list node) : list A :=
  match siblings with
  | [] => []
  | n :: siblings' => f i n ++ numbered (S i) siblings'
  end.
End Numbered.

(** The elements of the tree rooted at [n], itself first, in tree order. *)
Fixpoint inclusive_descendants (here : path) (n : node) : list element :=
  match n with
  | Element _ children =>
      (here, n)
        :: numbered (λ i child, inclusive_descendants (here ++ [i]) child)
             0 children
  | _ => []
  end.

(** The elements below the node at [here] whose child nodes are
    [children]. *)
Definition descendants (here : path) (children : list node) : list element :=
  numbered (λ i child, inclusive_descendants (here ++ [i]) child) 0 children.

(** Upper case of an ASCII letter, other characters unchanged. *)
Definition ascii_upper (c : ascii) : ascii :=
  let n := nat_of_ascii c in
  if (97 <=? n)%nat && (n <=? 122)%nat then ascii_of_nat (n - 32) else c.

Fixpoint upper (s : string) : string :=
  match s with
  | EmptyString => EmptyString
  | String c s' => String (ascii_upper c) (upper s')
  end.

(** A type selector such as [ruby] selects the elements with that tag
    name, whatever its case. *)
Definition selects (selector : string) (e : element) : bool :=
  String.eqb (nodeName e.2) (upper selector).

(** [document.querySelectorAll(selector)]: a static list, in document
    order.  The document is given by the child nodes of the document
    node. *)
Definition querySelectorAll (selector : string) (document : list node)
  : list element :=
  filter (λ e, selects selector e = true) (descendants [] document).

(** [e.querySelector(selector)]: the first element below [e], in tree
    order, that the selector selects, or [null]. *)
Definition querySelector (selector : string) (e : element) : option element :=
  head (filter (λ d, selects selector d = true)
          (descendants e.1 (childNodes e.2))).

(** The inline [style.visibility] of the elements, by place; an element
    without an entry has none set. *)
Abbreviation styles := (gmap path string).

(** [NodeList.prototype.forEach]: the callback on each element in turn; an
    exception thrown by the callback ends the iteration there. *)
Fixpoint forEach {A S : Type} (callback : A → S → completion * S)
    (l : list A) (s : S) : completion * S :=
  match l with
  | [] => (Normal, s)
  | x :: l' =>
      match callback x s with
      | (Normal, s') => forEach callback l' s'
      | (TypeError, s') => (TypeError, s')
      end
  end.

(** The body of the arrow function given to [forEach].  Assigning to
    [rubyText.style] when [rubyText] is [null] throws. *)
Definition hideFoundWord (knownVocab : gset string) (foundWord : element)
    (visibility : styles) : completion * styles :=
  let textWithoutRuby := getTextWithoutRuby foundWord.2 in
  if has knownVocab textWithoutRuby then
    match querySelector "rt" foundWord with
    | Some rubyText => (Normal, <[rubyText.1 := "hidden"]> visibility)
    | None => (TypeError, visibility)
    end
  else (Normal, visibility).

Definition findRubyInPage (knownVocab : gset string) (document : list node)
    (visibility : styles) : completion * styles :=
  let theRubyElements := querySelectorAll "ruby" document in
  forEach (hideFoundWord knownVocab) theRubyElements visibility.

(** *** Vocabulary of the statements *)

(** The place of the reading that the walk hides for [foundWord], if it
    hides one. *)
Definition hidden_reading (knownVocab : gset string) (foundWord : element)
  : option path :=
  if has knownVocab (getTextWithoutRuby foundWord.2)
  then fst <$> querySelector "rt" foundWord
  else None.

(** The callback throws on [foundWord]. *)
Definition throws_on (knownVocab : gset string) (foundWord : element) : bool :=
  has knownVocab (getTextWithoutRuby foundWord.2)
  && bool_decide (querySelector "rt" foundWord = None).

(** [style.visibility = "hidden"] on each place of a list. *)
Definition hide_all (places : list path) (visibility : styles) : styles :=
  foldl (λ v place, <[place := "hidden"]> v) visibility places.

(** The places of the child nodes of [e] that are [rt] elements. *)
Definition reading_children (e : element) : list path :=
  omap id
    (imap (λ i child,
             if String.eqb (nodeName child) "RT" then Some (e.1 ++ [i])
             else None)
       (childNodes e.2)).

(** The first testable property as the specification words it: the ruby
    elements with a known base text have their reading children hidden, and
    nothing at or below a ruby element with another base text changes. *)
Definition hides_exactly_known (knownVocab : gset string)
    (document : list node) (before after : styles) : Prop :=
  ∀ e, e ∈ querySelectorAll "ruby" document →
    if has knownVocab (getTextWithoutRuby e.2)
    then ∀ reading, reading ∈ reading_children e →
                    after !! reading = Some "hidden"
    else ∀ place, e.1 `prefix_of` place → after !! place = before !! place.

(** A ruby element inside another: the inner one pairs the first character
    with an empty reading, the outer one the whole word with its reading. *)
Definition nested_rubies : list node :=
  [Element "RUBY"
     [Element "RUBY" [Text "明"; Element "RT" []];
      Text "日";
      Element "RT" [Text "あした"]]].

(** A ruby element with a reading for each of its two characters. *)
Definition two_readings : list node :=
  [Element "RUBY"
     [Text "東"; Element "RT" [Text "とう"];
      Text "京"; Element "RT" [Text "きょう"]]].

(** A ruby element whose reading is held in an [rtc] container. *)
Definition contained_reading : list node :=
  [Element "RUBY"
     [Text "日本語"; Element "RTC" [Element "RT" []]]].

(** A ruby element without a reading, before one with a reading. *)
Definition missing_reading : list node :=
  [Element "RUBY" [Text "日本語"];
   Element "RUBY" [Text "明日"; Element "RT" [Text "あした"]]].

(** Four ruby elements, the second and the fourth without a reading. *)
Definition missing_readings_between : list node :=
  [Element "RUBY" [Text "明日"; Element "RT" [Text "あした"]];
   Element "RUBY" [Text "日本語"];
   Element "RUBY" [Text "本"; Element "RT" [Text "ほん"]];
   Element "RUBY" [Text "日本語"]].

End Dom.

(* ===================================================================== *)
(** ** The subject resolver and its pagination loops *)
(* ===================================================================== *)

Module WaniKani.

(** The [data] object of an assignment: the subject it is about, the kind
    of that subject and the stage reached. *)
Record assignment := Assignment {
  subject_id : Z;
  subject_type : string;
  srs_stage : Z
}.

(** The [data] object of a subject. *)
Record subject := Subject {
  slug : string
}.

(** The body of a collection response: the resources in [data] and the
    cursor [pages.next_url], a string or [null]. *)
Record collection (A : Type) := Collection {
  data : list A;
  next_url : option string
}.
Arguments Collection {A} data next_url.
Arguments data {A} c.
Arguments next_url {A} c.

(** What a [fetch] gives back: a rejection, which the [catch] handler logs,
    leaving [response] undefined, or a response whose body decodes to a
    collection. *)
Inductive response (A : Type) :=
| FetchRejected
| Body (jsonData : collection A).
Arguments FetchRejected {A}.
Arguments Body {A} jsonData.

(** The network as the script meets it: the responses that the fetches of
    the assignments loop will receive, in order, those that the fetches of
    the subjects loop will receive, and the requests sent so far. *)
Record network := Network {
  assignments_feed : list (response assignment);
  subjects_feed : list (response subject);
  sent : list request
}.

(** [Set.prototype.add] on the set of subject identifiers, which keeps the
    order of insertion: [Array.from] reads it back in that order. *)
Definition Set_add (x : Z) (s : list Z) : list Z :=
  if bool_decide (x ∈ s) then s else s ++ [x].

(** [String(n)] for an integer that a number holds exactly, as the
    identifiers of the service are. *)
Definition number_to_string (n : Z) : string :=
  NilZero.string_of_int (Z.to_int n).

(** [Array.prototype.join()], with its default separator. *)
Definition join (l : list string) : string := String.concat "," l.

(** [lookupSubjectIds]: every record of the page adds its subject. *)
Definition lookupSubjectIds (assignmentsAsJson : collection assignment)
    (subjectIds : list Z) : list Z :=
  fold_left (λ ids val, Set_add (subject_id val) ids)
    (data assignmentsAsJson) subjectIds.

(** [addVocabFromSubjects]: every subject of the page adds its slug. *)
Definition addVocabFromSubjects (subjectsAsJson : collection subject)
    (vocabSet : gset string) : gset string :=
  fold_left (λ vocab subject, {[ slug subject ]} ∪ vocab)
    (data subjectsAsJson) vocabSet.

Definition assignments_url : string :=
  "https://api.wanikani.com/v2/" +:+
  ("assignments" +:+ "?" +:+ "srs_stages=5,6,7,8,9" +:+ "&" +:+
   "subject_types=kanji,vocabulary").

Definition subjects_url (subjectIds : list Z) : string :=
  "https://api.wanikani.com/v2/" +:+
  ("subjects?ids=" +:+ join (map number_to_string subjectIds)).

Section Api.
(** The decoding of percent escapes, as the runtime provides it, and the
    global [apiToken].  The URLs of the service are well formed: the
    decoding does not throw.  The token is one from which [new Headers]
    builds a header, as the tokens of the service are, which hold letters,
    digits and hyphens: given a value with a code unit above U+00FF the
    constructor throws before the first fetch, and no request is sent. *)
Variable decodeURIComponent : string → string.
Variable apiToken : string.

Definition apiEndpoint (nextPage : string) : request :=
  Request (decodeURIComponent nextPage) ("Bearer " +:+ apiToken).

(** The [do ... while (nextPage)] of [lookupVocab]; one response of the
    feed is consumed by each fetch.  After a rejected fetch
    [response.json()] is called on [undefined] and throws. *)
Fixpoint lookupVocab_loop (feed : list (response subject))
    (nextPage : string) (vocabSet : gset string) (log : list request)
  : promise unit * gset string * list (response subject) * list request :=
  let log' := log ++ [apiEndpoint nextPage] in
  match feed with
  | [] => (Pending, vocabSet, [], log')
  | FetchRejected :: feed' => (Rejected, vocabSet, feed', log')
  | Body jsonData :: feed' =>
      let vocabSet' := addVocabFromSubjects jsonData vocabSet in
      match next_url jsonData with
      | Some nextPage' =>
          if truthy nextPage'
          then lookupVocab_loop feed' nextPage' vocabSet' log'
          else (Fulfilled (), vocabSet', feed', log')
      | None => (Fulfilled (), vocabSet', feed', log')
      end
  end.

Definition lookupVocab (subjectIds : list Z) (vocabSet : gset string)
    (net : network) : promise unit * gset string * network :=
  let '(p, vocabSet', feed', log') :=
    lookupVocab_loop (subjects_feed net) (subjects_url subjectIds)
      vocabSet (sent net) in
  (p, vocabSet', Network (assignments_feed net) feed' log').

(** The [do ... while (nextPage)] of [getAssignments].  Each page gets a
    fresh set of identifiers, and [lookupVocab] is awaited on it before
    the cursor is tested. *)
Fixpoint getAssignments_loop (feed : list (response assignment))
    (nextPage : string) (knownVocab : gset string)
    (subjects : list (response subject)) (log : list request)
  : promise unit * gset string * network :=
  let log' := log ++ [apiEndpoint nextPage] in
  match feed with
  | [] => (Pending, knownVocab, Network [] subjects log')
  | FetchRejected :: feed' =>
      (Rejected, knownVocab, Network feed' subjects log')
  | Body jsonData :: feed' =>
      let subjectIds := lookupSubjectIds jsonData [] in
      match lookupVocab subjectIds knownVocab
              (Network feed' subjects log') with
      | (Fulfilled _, knownVocab', net') =>
          match next_url jsonData with
          | Some nextPage' =>
              if truthy nextPage'
              then getAssignments_loop feed' nextPage' knownVocab'
                     (subjects_feed net') (sent net')
              else (Fulfilled (), knownVocab', net')
          | None => (Fulfilled (), knownVocab', net')
          end
      | (Rejected, knownVocab', net') => (Rejected, knownVocab', net')
      | (Pending, knownVocab', net') => (Pending, knownVocab', net')
      end
  end.

Definition getAssignments (knownVocab : gset string) (net : network)
  : promise unit * gset string * network :=
  getAssignments_loop (assignments_feed net) assignments_url knownVocab
    (subjects_feed net) (sent net).

(** The requests that follow the first one when [pages] are received in
    turn: one for each cursor. *)
Definition follow_ups {A : Type} (pages : list (collection A))
  : list request :=
  omap (λ p, match next_url p with
             | Some nextPage =>
                 if truthy nextPage then Some (apiEndpoint nextPage)
                 else None
             | None => None
             end) pages.

(** The requests of a whole run of [lookupVocab] over [pages]. *)
Definition subject_requests (subjectIds : list Z)
    (pages : list (collection subject)) : list request :=
  apiEndpoint (subjects_url subjectIds) :: follow_ups pages.

(** The requests of a whole run of [getAssignments], in the order in
    which they are sent: for each turn the request for the page of
    assignments, then those of the lookup of its subjects. *)
Fixpoint assignment_requests (nextPage : string)
    (rounds : list (collection assignment * list (collection subject)))
  : list request :=
  match rounds with
  | [] => []
  | (page, answers) :: rounds' =>
      apiEndpoint nextPage
        :: subject_requests (lookupSubjectIds page []) answers
        ++ match next_url page with
           | Some nextPage' => assignment_requests nextPage' rounds'
           | None => []
           end
  end.
End Api.

(** *** Vocabulary of the statements *)

(** A page with a next page: its cursor is a non-empty string. *)
Definition more_pages {A : Type} (p : collection A) : bool :=
  match next_url p with
  | Some nextPage => truthy nextPage
  | None => false
  end.

(** A run of pages as the service links them: every page but the last
    names a next page, the last does not. *)
Fixpoint linked {A : Type} (pages : list (collection A)) : bool :=
  match pages with
  | [] => false
  | [p] => negb (more_pages p)
  | p :: pages' => more_pages p && linked pages'
  end.

(** The slugs of all the subjects of some pages, and the subjects of all
    the assignments of some pages, duplicates collapsed. *)
Definition all_slugs (pages : list (collection subject)) : gset string :=
  list_to_set (slug <$> (pages ≫= data)).


(** One turn of the outer loop, as the network serves it: a page of
    assignments, and the pages of subjects that answer the lookup of its
    identifiers. *)
Abbreviation round := (collection assignment * list (collection subject))%type.


(** The policy named by the specification: the fifth stage or above, and a
    kanji or a vocabulary item. *)
Definition qualifies (a : assignment) : bool :=
  (5 <=? srs_stage a)%Z &&
  (String.eqb (subject_type a) "kanji"
   || String.eqb (subject_type a) "vocabulary").

(** Pages as the service sends them: two linked pages of subjects, then a
    page that answers another lookup; the subjects of the first two on one
    page; two linked pages of assignments. *)
Definition page1 : collection subject :=
  Collection [Subject "日本語"; Subject "日"]
    (Some "https://api.wanikani.com/v2/subjects?page_after_id=2467").
Definition page2 : collection subject :=
  Collection [Subject "日"; Subject "明日"] None.
Definition page3 : collection subject := Collection [Subject "本"] None.
Definition assignments1 : collection assignment :=
  Collection [Assignment 440 "kanji" 5; Assignment 2467 "vocabulary" 6]
    (Some "https://api.wanikani.com/v2/assignments?page_after_id=80469434").
Definition assignments2 : collection assignment :=
  Collection [Assignment 440 "kanji" 5] None.

(** The filter as the specification words it: an identifier drawn from a
    page comes from a record of the page that qualifies. *)
Definition only_qualifying_contribute (page : collection assignment) : Prop :=
  ∀ x, x ∈ lookupSubjectIds page [] →
       ∃ val, val ∈ data page ∧ qualifies val = true ∧ subject_id val = x.

(** A page that a service ignoring the query would send: a kanji at the
    fifth stage, a radical, and a vocabulary item at the third stage. *)
Definition mixed_batch : collection assignment :=
  Collection
    [Assignment 440 "kanji" 5;
     Assignment 8 "radical" 9;
     Assignment 2467 "vocabulary" 3]
    None.

End WaniKani.

(* ===================================================================== *)
(** ** The credential provider *)
(* ===================================================================== *)

Module Credential.

(** The values that a token variable of the script can hold. *)
Inductive value :=
| undefined
| null
| str (s : string).

Definition truthy_value (v : value) : bool :=
  match v with
  | str s => truthy s
  | _ => false
  end.

(** The conversion of the operand of [+] to a string. *)
Definition to_string (v : value) : string :=
  match v with
  | undefined => "undefined"
  | null => "null"
  | str s => s
  end.

(** The script manager's storage; [GM.getValue] of a key never set gives
    [undefined]. *)
Abbreviation storage := (gmap string value).

Definition GM_getValue (key : string) (store : storage) : value :=
  default undefined (store !! key).

Definition GM_setValue (key : string) (v : value) (store : storage)
  : storage :=
  <[key := v]> store.

(** What the reader answers to the prompt: a text, or nothing when the
    dialog is cancelled. *)
Definition prompt (answer : option string) : value :=
  match answer with
  | Some text => str text
  | None => null
  end.

(** What the validation fetch gives back: a rejection, or a response with
    its [ok] flag. *)
Inductive validation :=
| ValidationUnreachable
| Status (ok : bool).

(** What the reader and the network see of a call. *)
Inductive effect :=
| Prompted (message : string)
| Fetched (r : request)
| Logged.

Section Token.
Variable decodeURIComponent : string → string.

(** [getApiToken].  After a rejected fetch [response] is undefined, and
    reading [response.ok] throws.  The answer to the prompt is one from
    which [new Headers] builds a header, as a token of the service is:
    given an answer with a code unit above U+00FF the constructor throws
    before the fetch, and the promise is rejected with nothing stored. *)
Definition getApiToken (store : storage) (answer : option string)
    (validated : validation) : promise value * storage * list effect :=
  let existingToken := GM_getValue "WK_API_TOKEN" store in
  if truthy_value existingToken then (Fulfilled existingToken, store, [])
  else
    let apiTokenFromUser := prompt answer in
    let apiEndpoint :=
      Request (decodeURIComponent "https://api.wanikani.com/v2/voice_actors")
        ("Bearer " +:+ to_string apiTokenFromUser) in
    let shown :=
      [Prompted "Please enter your WaniKani API Token to continue:";
       Fetched apiEndpoint] in
    match validated with
    | ValidationUnreachable => (Rejected, store, shown ++ [Logged])
    | Status true =>
        (Fulfilled apiTokenFromUser,
         GM_setValue "WK_API_TOKEN" apiTokenFromUser store, shown)
    | Status false => (Fulfilled undefined, store, shown)
    end.
End Token.

(** *** Vocabulary of the statements *)

(** The credential flow as the specification words it, for a call that
    finds no usable token in the storage: an accepted token is stored and
    returned; after a refusal, a failure of the network or an empty answer
    nothing is stored and the result is [undefined]. *)
Definition resolves_as_specified (store : storage) (answer : option string)
    (validated : validation)
    (outcome : promise value * storage * list effect) : Prop :=
  (validated = Status true → answer ≠ Some EmptyString →
     outcome.1.1 = Fulfilled (prompt answer)
     ∧ outcome.1.2 = GM_setValue "WK_API_TOKEN" (prompt answer) store)
  ∧ (validated = Status false ∨ validated = ValidationUnreachable
     ∨ answer = Some EmptyString →
     outcome.1.1 = Fulfilled undefined ∧ outcome.1.2 = store).

End Credential.

(* ===================================================================== *)
(** ** The update of the page *)
(* ===================================================================== *)

Module Script.
Import Dictionary Dom WaniKani Credential.

(** The quotation mark, which the notice holds twice. *)
Definition quotation : string := String "034" EmptyString.

(** The text of the alert. *)
Definition invalid_token_notice : string :=
  "The WaniKani API Token appears to be invalid. The user script "
  +:+ quotation +:+ "NHK Easy Practice With WaniKani" +:+ quotation
  +:+ " will not be loaded.".

(** What the script meets and what it leaves when the page has loaded: the
    storage of the script manager, the answers that the reader and the
    validation endpoint will give, the network, the document and the inline
    visibility of its elements, the entries of the pop-up dictionary
    [g_dic.reikai.entries] when the page defines [g_dic], what the
    credential provider has shown and sent, and the alerts shown. *)
Record browser := Browser {
  store : gmap string value;
  answer : option string;
  validated : validation;
  net : network;
  document : list node;
  visibility : gmap (list nat) string;
  g_dic : option (gmap string (list entryValues));
  effects : list effect;
  alerts : list string
}.

Section Update.
Variable decodeURIComponent : string → string.

(** [handleUpdatingPage].  The global [apiToken] holds what [getApiToken]
    resolved to; the requests of [getAssignments] carry it after the word
    [Bearer].  An exception thrown by an awaited call or by
    [findRubyInPage] rejects the promise, and what follows is not run. *)
Definition handleUpdatingPage (b : browser) : promise unit * browser :=
  match getApiToken decodeURIComponent (store b) (answer b) (validated b) with
  | (Fulfilled apiToken, store', shown) =>
      if negb (truthy_value apiToken) then
        (Fulfilled (),
         Browser store' (answer b) (validated b) (net b) (document b)
           (visibility b) (g_dic b) (effects b ++ shown)
           (alerts b ++ [invalid_token_notice]))
      else
        match getAssignments decodeURIComponent (to_string apiToken) ∅
                (net b) with
        | (Fulfilled _, knownVocab, net') =>
            match findRubyInPage knownVocab (document b) (visibility b) with
            | (Normal, visibility') =>
                (Fulfilled (),
                 Browser store' (answer b) (validated b) net' (document b)
                   visibility' (findRubyInDictionary knownVocab <$> g_dic b)
                   (effects b ++ shown) (alerts b))
            | (TypeError, visibility') =>
                (Rejected,
                 Browser store' (answer b) (validated b) net' (document b)
                   visibility' (g_dic b) (effects b ++ shown) (alerts b))
            end
        | (Rejected, _, net') =>
            (Rejected,
             Browser store' (answer b) (validated b) net' (document b)
               (visibility b) (g_dic b) (effects b ++ shown) (alerts b))
        | (Pending, _, net') =>
            (Pending,
             Browser store' (answer b) (validated b) net' (document b)
               (visibility b) (g_dic b) (effects b ++ shown) (alerts b))
        end
  | (Rejected, store', shown) =>
      (Rejected,
       Browser store' (answer b) (validated b) (net b) (document b)
         (visibility b) (g_dic b) (effects b ++ shown) (alerts b))
  | (Pending, store', shown) =>
      (Pending,
       Browser store' (answer b) (validated b) (net b) (document b)
         (visibility b) (g_dic b) (effects b ++ shown) (alerts b))
  end.
End Update.

(** *** Vocabulary of the statements *)

(** A page load with a stored token, the two pages of assignments and the
    three pages of subjects of the examples above, a document with one ruby
    element for a word that the second page of subjects holds, and a
    dictionary with one entry. *)
Definition returning_reader : browser :=
  Browser {[ "WK_API_TOKEN" := str "token" ]} None ValidationUnreachable
    (Network [Body assignments1; Body assignments2]
       [Body page1; Body page2; Body page3] [])
    [Element "RUBY" [Text "明日"; Element "RT" [Text "あした"]]] ∅
    (Some {[ "BE-1" :=
               [EntryValues
                  "<ruby><rb>明日</rb><rt>あした</rt></ruby>の<ruby><rb>朝</rb><rt>あさ</rt></ruby>"
                  []] ]})
    [] [].

(** The same page load, of a document whose first ruby element has no
    reading. *)
Definition returning_reader_missing_reading : browser :=
  Browser (store returning_reader) None ValidationUnreachable
    (net returning_reader) missing_reading ∅ (g_dic returning_reader) [] [].

(** A first page load: nothing stored, an answer that the validation
    endpoint will refuse. *)
Definition refused_reader : browser :=
  Browser ∅ (Some "wrong") (Status false) (net returning_reader)
    (document returning_reader) ∅ (g_dic returning_reader) [] [].

(** A first page load during which the validation endpoint cannot be
    reached. *)
Definition offline_reader : browser :=
  Browser ∅ (Some "token") ValidationUnreachable (net returning_reader)
    (document returning_reader) ∅ (g_dic returning_reader) [] [].

End Script.

(* ===================================================================== *)
(** * Properties *)
(* ===================================================================== *)

(** ** Strings *)

Lemma append_cons (x : ascii) (a b : string) :
  String x a +:+ b = String x (a +:+ b).
Proof. reflexivity. Qed.

Lemma append_empty_l (a : string) : "" +:+ a = a.
Proof. reflexivity. Qed.

Lemma append_assoc (a b c : string) : (a +:+ b) +:+ c = a +:+ (b +:+ c).
Proof.
  induction a as [|x a IH]; [done |]. rewrite !append_cons. by f_equal.
Qed.

Lemma append_empty_r (a : string) : a +:+ "" = a.
Proof.
  induction a as [|x a IH]; [done |]. rewrite append_cons. by f_equal.
Qed.

Lemma length_append (a b : string) :
  String.length (a +:+ b) = String.length a + String.length b.
Proof.
  induction a as [|x a IH]; [done |]. rewrite append_cons. simpl. by f_equal.
Qed.

(** ** The embedded-markup strategy *)

Section DictionaryFacts.
Import Dictionary.

Lemma strip_prefix_cons a lit b s :
  strip_prefix (String a lit) (String b s)
  = if Ascii.eqb a b then strip_prefix lit s else None.
Proof. reflexivity. Qed.

Lemma strip_prefix_append lit s : strip_prefix lit (lit +:+ s) = Some s.
Proof.
  induction lit as [|a lit IH]; [done |].
  rewrite append_cons. simpl. by rewrite Ascii.eqb_refl.
Qed.

Lemma strip_prefix_Some lit s r : strip_prefix lit s = Some r → s = lit +:+ r.
Proof.
  revert s. induction lit as [|a lit IH]; intros s; simpl.
  - by intros [= ->].
  - destruct s as [|b s]; [done |].
    destruct (Ascii.eqb_spec a b) as [->|]; [| done].
    intros H. by rewrite append_cons, (IH _ H).
Qed.

(** A literal none of whose ends starts [t] is matched inside [s +:+ t]
    exactly when it is matched inside [s]. *)
Lemma strip_prefix_border lit s t :
  no_border lit t = true →
  strip_prefix lit (s +:+ t) = (λ r, r +:+ t) <$> strip_prefix lit s.
Proof.
  revert s. induction lit as [|a lit IH]; intros s Hb; [done |].
  cbn [no_border] in Hb.
  destruct (strip_prefix (String a lit) t) eqn:Ht; [done |].
  destruct s as [|b s]; [by rewrite append_empty_l, Ht |].
  rewrite append_cons. simpl. destruct (Ascii.eqb a b); [by apply IH | done].
Qed.

Lemma span_not_lt_spec s :
  s = (span_not_lt s).1 +:+ (span_not_lt s).2 ∧ no_lt (span_not_lt s).1 = true.
Proof.
  induction s as [|c s [IH1 IH2]]; simpl; [done |].
  destruct (Ascii.eqb c "<") eqn:Hc; simpl; [done |].
  destruct (span_not_lt s) as [run rest]; simpl in *.
  rewrite Hc, append_cons. split; [by rewrite <- IH1 | done].
Qed.

Lemma span_not_lt_run run t :
  no_lt run = true → span_not_lt (run +:+ String "<" t) = (run, String "<" t).
Proof.
  induction run as [|c run IH]; [done |].
  rewrite append_cons. simpl. intros [Hc Hrun]%andb_true_iff.
  destruct (Ascii.eqb c "<"); [done |]. by rewrite IH.
Qed.

Lemma span_not_lt_before s t :
  span_not_lt (s +:+ String "<" t)
  = ((span_not_lt s).1, (span_not_lt s).2 +:+ String "<" t).
Proof.
  induction s as [|c s IH]; [done |].
  rewrite append_cons. simpl. destruct (Ascii.eqb c "<"); [done |].
  rewrite IH. by destruct (span_not_lt s).
Qed.

(** The matcher accepts the pattern, with the base form as its group. *)
Lemma matcher_accepts word reading rest :
  no_lt word = true → no_lt reading = true →
  rubyElementMatcherExp (ruby_markup word reading +:+ rest)
  = Some (ruby_markup word reading, word, rest).
Proof.
  intros Hw Hr. unfold rubyElementMatcherExp, ruby_markup.
  rewrite !append_assoc, strip_prefix_append.
  change (ruby_middle +:+ ?x) with (String "<" ("/rb><rt>" +:+ x)).
  rewrite (span_not_lt_run _ _ Hw).
  change (String "<" ("/rb><rt>" +:+ ?x)) with (ruby_middle +:+ x).
  rewrite strip_prefix_append.
  change (ruby_close +:+ ?x) with (String "<" ("/rt></ruby>" +:+ x)).
  rewrite (span_not_lt_run _ _ Hr).
  change (String "<" ("/rt></ruby>" +:+ ?x)) with (ruby_close +:+ x).
  by rewrite strip_prefix_append.
Qed.

(** The matcher accepts nothing else: its matches are the texts of the
    pattern, and since it is a function, a text starts with at most one of
    them; the order in which a backtracking engine tries the alternatives
    cannot change the match found. *)
Lemma matcher_sound s rubyElement word rest :
  rubyElementMatcherExp s = Some (rubyElement, word, rest) →
  ∃ reading,
    rubyElement = ruby_markup word reading ∧ s = rubyElement +:+ rest ∧
    no_lt word = true ∧ no_lt reading = true.
Proof.
  unfold rubyElementMatcherExp.
  destruct (strip_prefix ruby_open s) as [s1|] eqn:H1; [| done].
  pose proof (span_not_lt_spec s1) as [E2 N2].
  destruct (span_not_lt s1) as [w s2]; simpl in E2, N2.
  destruct (strip_prefix ruby_middle s2) as [s3|] eqn:H3; [| done].
  pose proof (span_not_lt_spec s3) as [E4 N4].
  destruct (span_not_lt s3) as [rd s4]; simpl in E4, N4.
  destruct (strip_prefix ruby_close s4) as [s5|] eqn:H5; [| done].
  intros [= <- <- <-]. exists rd. repeat split; try done.
  apply strip_prefix_Some in H1, H3, H5.
  unfold ruby_markup. rewrite !append_assoc. congruence.
Qed.

(** A text is read as an occurrence of the pattern followed by a rest in
    one way only. *)
Lemma pattern_unambiguous word reading rest word' reading' rest' :
  no_lt word = true → no_lt reading = true →
  no_lt word' = true → no_lt reading' = true →
  ruby_markup word reading +:+ rest = ruby_markup word' reading' +:+ rest' →
  ruby_markup word reading = ruby_markup word' reading'
  ∧ word = word' ∧ rest = rest'.
Proof.
  intros Hw Hr Hw' Hr' Heq.
  pose proof (matcher_accepts word reading rest Hw Hr) as H.
  rewrite Heq, (matcher_accepts word' reading' rest' Hw' Hr') in H.
  apply (inj Some) in H. apply pair_equal_spec in H as [H Hrest].
  apply pair_equal_spec in H as [Hmarkup Hword]. done.
Qed.

Lemma matcher_shrinks s rubyElement word rest :
  rubyElementMatcherExp s = Some (rubyElement, word, rest) →
  String.length rest < String.length s.
Proof.
  intros (rd & -> & -> & _)%matcher_sound.
  unfold ruby_markup. rewrite !length_append. simpl. lia.
Qed.

Lemma matcher_first_char c s :
  c ≠ "<"%char → rubyElementMatcherExp (String c s) = None.
Proof.
  intros Hc. unfold rubyElementMatcherExp, ruby_open.
  rewrite strip_prefix_cons.
  destruct (Ascii.eqb_spec "<" c); [congruence | done].
Qed.

(** A match that starts before an opening marker ends before it. *)
Lemma matcher_before_marker pre t :
  pre ≠ EmptyString →
  rubyElementMatcherExp (pre +:+ (ruby_open +:+ t))
  = (λ '(m, w, rest), (m, w, rest +:+ (ruby_open +:+ t)))
      <$> rubyElementMatcherExp pre.
Proof.
  intros Hpre. destruct pre as [|c pre]; [done |].
  unfold rubyElementMatcherExp.
  change (strip_prefix ruby_open (String c pre +:+ ?x))
    with (if Ascii.eqb "<" c then strip_prefix "ruby><rb>" (pre +:+ x)
          else None).
  change (strip_prefix ruby_open (String c pre))
    with (if Ascii.eqb "<" c then strip_prefix "ruby><rb>" pre else None).
  destruct (Ascii.eqb "<" c); [| done].
  rewrite strip_prefix_border by done.
  destruct (strip_prefix "ruby><rb>" pre) as [s1|]; [| done]. cbn [fmap option_fmap option_map fst snd].
  change (ruby_open +:+ t) with (String "<" ("ruby><rb>" +:+ t)).
  rewrite span_not_lt_before. destruct (span_not_lt s1) as [w s2]. cbn [fmap option_fmap option_map fst snd].
  change (String "<" ("ruby><rb>" +:+ t)) with (ruby_open +:+ t).
  rewrite strip_prefix_border by done.
  destruct (strip_prefix ruby_middle s2) as [s3|]; [| done]. cbn [fmap option_fmap option_map fst snd].
  change (ruby_open +:+ t) with (String "<" ("ruby><rb>" +:+ t)).
  rewrite span_not_lt_before. destruct (span_not_lt s3) as [rd s4]. cbn [fmap option_fmap option_map fst snd].
  change (String "<" ("ruby><rb>" +:+ t)) with (ruby_open +:+ t).
  rewrite strip_prefix_border by done.
  by destruct (strip_prefix ruby_close s4).
Qed.

(** *** The loop of [replaceAll] *)

Lemma replaceAll_loop_fuel f fuel1 fuel2 s :
  String.length s < fuel1 → String.length s < fuel2 →
  replaceAll_loop fuel1 f s = replaceAll_loop fuel2 f s.
Proof.
  revert fuel2 s. induction fuel1 as [|fuel1 IH]; intros fuel2 s H1 H2; [lia |].
  destruct fuel2 as [|fuel2]; [lia |]. cbn [replaceAll_loop].
  destruct (rubyElementMatcherExp s) as [[[m w] rest]|] eqn:Hm.
  - apply matcher_shrinks in Hm. f_equal. apply IH; lia.
  - destruct s as [|c s]; [done |]. f_equal. simpl in H1, H2. apply IH; lia.
Qed.

(** The loop never runs out of fuel: any larger fuel gives the result of
    [replaceAll]. *)
Lemma replaceAll_total f fuel s :
  String.length s < fuel → replaceAll_loop fuel f s = replaceAll f s.
Proof. intros H. apply replaceAll_loop_fuel; [done | lia]. Qed.

Lemma replaceAll_unfold f s :
  replaceAll f s =
  match rubyElementMatcherExp s with
  | Some (rubyElement, word, rest) => f rubyElement word +:+ replaceAll f rest
  | None =>
      match s with
      | EmptyString => EmptyString
      | String c s' => String c (replaceAll f s')
      end
  end.
Proof.
  unfold replaceAll at 1. cbn [replaceAll_loop].
  destruct (rubyElementMatcherExp s) as [[[m w] rest]|] eqn:Hm.
  - apply matcher_shrinks in Hm. by rewrite replaceAll_total.
  - destruct s as [|c s]; [done |]. by rewrite replaceAll_total by (simpl; lia).
Qed.

Lemma replaceAll_empty f : replaceAll f "" = "".
Proof. reflexivity. Qed.

Lemma replaceAll_char f c s :
  c ≠ "<"%char → replaceAll f (String c s) = String c (replaceAll f s).
Proof. intros Hc. by rewrite replaceAll_unfold, matcher_first_char. Qed.

Lemma replaceAll_ruby f word reading s :
  no_lt word = true → no_lt reading = true →
  replaceAll f (ruby_markup word reading +:+ s)
  = f (ruby_markup word reading) word +:+ replaceAll f s.
Proof. intros Hw Hr. by rewrite replaceAll_unfold, matcher_accepts. Qed.

Lemma string_length_ind (P : string → Prop) :
  (∀ s, (∀ t, String.length t < String.length s → P t) → P s) → ∀ s, P s.
Proof.
  intros step s. remember (String.length s) as n eqn:Hn. revert s Hn.
  induction (lt_wf n) as [n _ IH]. intros s ->.
  apply step. intros t Ht. by apply (IH _ Ht).
Qed.

(** The text before an occurrence of the pattern, the occurrence and the
    text after it are rewritten independently of each other. *)
Lemma replaceAll_occurrence f pre word reading post :
  no_lt word = true → no_lt reading = true →
  replaceAll f (pre +:+ ruby_markup word reading +:+ post)
  = replaceAll f pre +:+ f (ruby_markup word reading) word
      +:+ replaceAll f post.
Proof.
  intros Hw Hr. induction pre as [pre IH] using string_length_ind.
  destruct pre as [|c pre].
  { rewrite replaceAll_empty, !append_empty_l. by apply replaceAll_ruby. }
  rewrite (replaceAll_unfold f (String c pre +:+ _)), (replaceAll_unfold f (String c pre)).
  unfold ruby_markup at 1. rewrite !append_assoc.
  rewrite matcher_before_marker by done.
  fold (ruby_markup word reading).
  assert (ruby_open +:+ word +:+ ruby_middle +:+ reading +:+ ruby_close +:+ post
          = ruby_markup word reading +:+ post) as ->.
  { unfold ruby_markup. by rewrite !append_assoc. }
  destruct (rubyElementMatcherExp (String c pre)) as [[[m w] rest]|] eqn:Hm;
    cbn [fmap option_fmap option_map].
  - rewrite IH by (by eapply matcher_shrinks). by rewrite !append_assoc.
  - rewrite !append_cons. f_equal. apply IH. simpl; lia.
Qed.

(** Where no pattern found has a known base form, nothing changes. *)
Lemma rewrite_def_unknown knownVocab s :
  (∀ pre word reading post,
     s = pre +:+ ruby_markup word reading +:+ post →
     no_lt word = true → no_lt reading = true → word ∉ knownVocab) →
  rewrite_def knownVocab s = s.
Proof.
  unfold rewrite_def.
  induction s as [s IH] using string_length_ind. intros Hs.
  rewrite replaceAll_unfold.
  destruct (rubyElementMatcherExp s) as [[[m w] rest]|] eqn:Hm.
  - pose proof (matcher_shrinks _ _ _ _ Hm) as Hlen.
    apply matcher_sound in Hm as (rd & -> & -> & Hw & Hr).
    unfold replacer, has. rewrite bool_decide_eq_false_2.
    2:{ apply (Hs "" w rd rest); done. }
    f_equal. apply IH; [done |].
    intros pre word reading post -> Hword Hreading.
    apply (Hs (ruby_markup w rd +:+ pre) word reading post); [| done..].
    by rewrite !append_assoc.
  - destruct s as [|c s]; [done |]. f_equal. apply IH; [simpl; lia |].
    intros pre word reading post -> Hword Hreading.
    by apply (Hs (String c pre) word reading post).
Qed.

Lemma findRubyInDictionary_lookup knownVocab entries entryKey :
  findRubyInDictionary knownVocab entries !! entryKey
  = map (λ e, EntryValues (rewrite_def knownVocab (def e)) (other_fields e))
      <$> entries !! entryKey.
Proof. unfold findRubyInDictionary. by rewrite lookup_fmap. Qed.

(** C2.  The rewrite of a definition text is a function of the text and of
    the known vocabulary alone, applied to the [def] of every entry of the
    dictionary.  An occurrence of [<ruby><rb>BASE</rb><rt>READING</rt></ruby>]
    (base form and reading free of [<], as the pattern has them) becomes
    BASE when BASE is known and stays as it is otherwise, wherever it
    stands in the text, and the text around it is rewritten on its own.  A
    text none of whose occurrences has a known base form comes back
    unchanged.  With the known set holding only the word for "Japanese
    language", the text of the specification's example loses its ruby
    markup. *)
Theorem rewrite_def_replaces_known_bases :
  (∀ knownVocab entries entryKey values,
     entries !! entryKey = Some values →
     findRubyInDictionary knownVocab entries !! entryKey
     = Some (map (λ e, EntryValues (rewrite_def knownVocab (def e))
                         (other_fields e)) values))
  ∧ (∀ knownVocab pre word reading post,
       no_lt word = true → no_lt reading = true →
       rewrite_def knownVocab (pre +:+ ruby_markup word reading +:+ post)
       = rewrite_def knownVocab pre
         +:+ (if bool_decide (word ∈ knownVocab) then word
              else ruby_markup word reading)
         +:+ rewrite_def knownVocab post)
  ∧ (∀ knownVocab s,
       (∀ pre word reading post,
          s = pre +:+ ruby_markup word reading +:+ post →
          no_lt word = true → no_lt reading = true → word ∉ knownVocab) →
       rewrite_def knownVocab s = s)
  ∧ rewrite_def {[ "日本語" ]}
      "<ruby><rb>日本語</rb><rt>にほんご</rt></ruby>です"
    = "日本語です".
Proof.
  split_and!.
  - intros knownVocab entries entryKey values H.
    by rewrite findRubyInDictionary_lookup, H.
  - intros knownVocab pre word reading post Hw Hr.
    unfold rewrite_def. by rewrite replaceAll_occurrence.
  - apply rewrite_def_unknown.
  - by vm_compute.
Qed.

Lemma rewrite_def_replaces_known_bases_witness :
  rewrite_def {[ "日本語" ]}
    ("今日は" +:+ ruby_markup "日本語" "にほんご" +:+ "を")
  = rewrite_def {[ "日本語" ]} "今日は" +:+ "日本語"
      +:+ rewrite_def {[ "日本語" ]} "を"
  ∧ rewrite_def ∅ "<ruby><rb>日本語</rb><rt>にほんご</rt></ruby>です"
    = "<ruby><rb>日本語</rb><rt>にほんご</rt></ruby>です".
Proof.
  destruct rewrite_def_replaces_known_bases as (_ & Hocc & Hid & _). split.
  - etrans;
      [apply (Hocc {[ "日本語" ]} "今日は" "日本語" "にほんご" "を");
         reflexivity |].
    vm_compute. reflexivity.
  - apply Hid. intros. apply not_elem_of_empty.
Defined.

(** *** Applying the rewrite twice *)

Lemma settled_run knownVocab run s :
  no_lt run = true → settled knownVocab s → settled knownVocab (run +:+ s).
Proof.
  induction run as [|c run IH]; [done |].
  cbn [no_lt]. intros [Hc Hrun]%andb_true_iff Hs.
  rewrite append_cons. apply settled_char; [| by apply IH].
  intros ->. by rewrite Ascii.eqb_refl in Hc.
Qed.

Lemma rewrite_def_settles knownVocab s :
  clean_markup s → settled knownVocab (rewrite_def knownVocab s).
Proof.
  unfold rewrite_def. induction 1 as [|c s Hc _ IH|word reading s Hw Hr _ IH].
  - constructor.
  - rewrite replaceAll_char by done. by constructor.
  - rewrite replaceAll_ruby by done. unfold replacer, has.
    case_bool_decide; [by apply settled_run | by constructor].
Qed.

Lemma rewrite_def_settled knownVocab s :
  settled knownVocab s → rewrite_def knownVocab s = s.
Proof.
  unfold rewrite_def.
  induction 1 as [|c s Hc _ IH|word reading s Hw Hr Hk _ IH].
  - done.
  - rewrite replaceAll_char by done. by f_equal.
  - rewrite replaceAll_ruby by done. unfold replacer, has.
    rewrite bool_decide_eq_false_2 by done. by f_equal.
Qed.

Lemma length_ruby_markup word reading :
  String.length (ruby_markup word reading)
  = 31 + String.length word + String.length reading.
Proof. unfold ruby_markup. rewrite !length_append. simpl. lia. Qed.

(** The rewrite never lengthens a text. *)
Lemma length_rewrite_def knownVocab s :
  String.length (rewrite_def knownVocab s) ≤ String.length s.
Proof.
  unfold rewrite_def. induction s as [s IH] using string_length_ind.
  rewrite replaceAll_unfold.
  destruct (rubyElementMatcherExp s) as [[[m w] rest]|] eqn:Hm.
  - pose proof (matcher_shrinks _ _ _ _ Hm) as Hlen.
    apply matcher_sound in Hm as (rd & -> & -> & Hw & Hr).
    specialize (IH rest Hlen). rewrite !length_append, length_ruby_markup.
    unfold replacer at 1. destruct (has knownVocab w);
      rewrite ?length_ruby_markup; lia.
  - destruct s as [|c s]; [done |]. simpl. specialize (IH s). simpl in IH.
    lia.
Qed.

(** A text with an occurrence of the pattern whose base form is known is
    changed by the rewrite. *)
Lemma rewrite_def_changes knownVocab pre word reading post :
  no_lt word = true → no_lt reading = true → word ∈ knownVocab →
  rewrite_def knownVocab (pre +:+ ruby_markup word reading +:+ post)
  ≠ pre +:+ ruby_markup word reading +:+ post.
Proof.
  intros Hw Hr Hk Heq. apply (f_equal String.length) in Heq.
  unfold rewrite_def in Heq. rewrite replaceAll_occurrence in Heq by done.
  unfold replacer at 2 in Heq. unfold has in Heq.
  rewrite bool_decide_eq_true_2 in Heq by done.
  rewrite !length_append, length_ruby_markup in Heq.
  pose proof (length_rewrite_def knownVocab pre).
  pose proof (length_rewrite_def knownVocab post).
  unfold rewrite_def in *. lia.
Qed.

(** C10, as amended.  Rewriting twice gives what rewriting once gives
    exactly when the text rewritten once holds no occurrence of the ruby
    pattern with a known base form; this is so for every definition text in
    which every [<] belongs to an occurrence of the pattern. *)
Theorem rewrite_def_idempotence knownVocab s :
  (rewrite_def knownVocab (rewrite_def knownVocab s) = rewrite_def knownVocab s
   ↔ ∀ pre word reading post,
       rewrite_def knownVocab s = pre +:+ ruby_markup word reading +:+ post →
       no_lt word = true → no_lt reading = true → word ∉ knownVocab)
  ∧ (clean_markup s →
     rewrite_def knownVocab (rewrite_def knownVocab s)
     = rewrite_def knownVocab s).
Proof.
  split; [split |].
  - intros Hidem pre word reading post Heq Hw Hr Hk.
    rewrite Heq in Hidem. by apply rewrite_def_changes in Hidem.
  - apply rewrite_def_unknown.
  - intros Hs. by apply rewrite_def_settled, rewrite_def_settles.
Qed.

Lemma rewrite_def_idempotence_witness :
  clean_markup ("<ruby><rb>日</rb><rt>に</rt></ruby>a") ∧
  rewrite_def {[ "日" ]}
    (rewrite_def {[ "日" ]} "<ruby><rb>日</rb><rt>に</rt></ruby>a")
  = rewrite_def {[ "日" ]} "<ruby><rb>日</rb><rt>に</rt></ruby>a".
Proof.
  assert (clean_markup ("<ruby><rb>日</rb><rt>に</rt></ruby>a")) as H.
  { apply (clean_ruby "日" "に" "a"); [reflexivity | reflexivity |].
    apply clean_char; [discriminate | apply clean_empty]. }
  split; [exact H |].
  exact (proj2 (rewrite_def_idempotence {[ "日" ]} _) H).
Defined.

(** C10, as stated, fails: a pattern left without a match the first time,
    because its base form held markup, is matched once that markup has been
    replaced by its known base form. *)
Lemma rewrite_def_not_idempotent :
  rewrite_def {[ "日" ]} nested_markup = "<ruby><rb>日</rb><rt>ひ</rt></ruby>"
  ∧ rewrite_def {[ "日" ]} (rewrite_def {[ "日" ]} nested_markup) = "日"
  ∧ rewrite_def {[ "日" ]} (rewrite_def {[ "日" ]} nested_markup)
    ≠ rewrite_def {[ "日" ]} nested_markup.
Proof. by vm_compute. Qed.

End DictionaryFacts.

(** ** The live-DOM strategy *)

Section DomFacts.
Import Dom.

Lemma lookup_hide_all places visibility place :
  hide_all places visibility !! place
  = if bool_decide (place ∈ places) then Some "hidden"
    else visibility !! place.
Proof.
  unfold hide_all. revert visibility.
  induction places as [|p places IH]; intros visibility; cbn [foldl].
  - by rewrite bool_decide_eq_false_2 by apply not_elem_of_nil.
  - rewrite IH. destruct (decide (place = p)) as [->|Hne].
    + rewrite (bool_decide_eq_true_2 (p ∈ p :: places)) by left.
      rewrite lookup_insert_eq. by case_bool_decide.
    + rewrite lookup_insert_ne by done.
      rewrite (bool_decide_ext (place ∈ p :: places) (place ∈ places));
        [done |].
      rewrite elem_of_cons. split; [by intros [?|?] | by right].
Qed.

Lemma hide_all_idempotent places visibility :
  hide_all places (hide_all places visibility) = hide_all places visibility.
Proof.
  apply map_eq. intros place. rewrite !lookup_hide_all.
  by case_bool_decide.
Qed.

Lemma hideFoundWord_spec knownVocab foundWord visibility :
  hideFoundWord knownVocab foundWord visibility
  = if throws_on knownVocab foundWord then (TypeError, visibility)
    else (Normal,
          hide_all (option_list (hidden_reading knownVocab foundWord))
            visibility).
Proof.
  unfold hideFoundWord, throws_on, hidden_reading.
  destruct (has knownVocab (getTextWithoutRuby foundWord.2)); [| done].
  by destruct (querySelector "rt" foundWord).
Qed.

(** While the callback does not throw, [forEach] hides the readings of the
    elements it is given, and nothing else. *)
Lemma forEach_hides knownVocab elements visibility :
  Forall (λ e, throws_on knownVocab e = false) elements →
  forEach (hideFoundWord knownVocab) elements visibility
  = (Normal, hide_all (omap (hidden_reading knownVocab) elements) visibility).
Proof.
  intros Hall. revert visibility.
  induction Hall as [|e elements He _ IH]; intros visibility; [done |].
  cbn [forEach]. rewrite hideFoundWord_spec, He, IH. simpl.
  by destruct (hidden_reading knownVocab e).
Qed.

(** It stops at the first element on which the callback throws. *)
Lemma forEach_throws knownVocab before e after visibility :
  Forall (λ e, throws_on knownVocab e = false) before →
  throws_on knownVocab e = true →
  forEach (hideFoundWord knownVocab) (before ++ e :: after) visibility
  = (TypeError, hide_all (omap (hidden_reading knownVocab) before) visibility).
Proof.
  intros Hall He. revert visibility.
  induction Hall as [|e' before He' _ IH]; intros visibility.
  - cbn [forEach app]. by rewrite hideFoundWord_spec, He.
  - cbn [forEach app]. rewrite hideFoundWord_spec, He', IH. simpl.
    by destruct (hidden_reading knownVocab e').
Qed.

(** A list either is free of throwing elements or has a first one. *)
Lemma first_throw knownVocab (elements : list element) :
  Forall (λ e, throws_on knownVocab e = false) elements
  ∨ ∃ before e after,
      elements = before ++ e :: after
      ∧ Forall (λ e, throws_on knownVocab e = false) before
      ∧ throws_on knownVocab e = true.
Proof.
  induction elements as [|e elements IH]; [by left |].
  destruct (throws_on knownVocab e) eqn:He.
  { right. by exists [], e, elements. }
  destruct IH as [IH|(before & e' & after & -> & Hb & He')].
  - left. by constructor.
  - right. exists (e :: before), e', after. split_and!; [done | | done].
    by constructor.
Qed.

Lemma forEach_idempotent knownVocab elements visibility :
  forEach (hideFoundWord knownVocab) elements
    (forEach (hideFoundWord knownVocab) elements visibility).2
  = forEach (hideFoundWord knownVocab) elements visibility.
Proof.
  destruct (first_throw knownVocab elements)
    as [Hall|(before & e & after & -> & Hb & He)].
  - rewrite !forEach_hides by done. simpl. by rewrite hide_all_idempotent.
  - rewrite !forEach_throws by done. simpl. by rewrite hide_all_idempotent.
Qed.

(** C6.  Running [findRubyInPage] a second time, on the styles that the
    first run left, ends as the first run did and leaves the visibility of
    every element as the first run left it. *)
Theorem findRubyInPage_idempotent knownVocab document visibility :
  findRubyInPage knownVocab document
    (findRubyInPage knownVocab document visibility).2
  = findRubyInPage knownVocab document visibility.
Proof. apply forEach_idempotent. Qed.

Lemma throws_on_false knownVocab e :
  throws_on knownVocab e = false ↔
  (has knownVocab (getTextWithoutRuby e.2) = true →
   is_Some (querySelector "rt" e)).
Proof.
  unfold throws_on. destruct (has knownVocab _); simpl.
  - rewrite bool_decide_eq_false, <- not_eq_None_Some. naive_solver.
  - naive_solver.
Qed.

Lemma elem_of_hidden_readings knownVocab (elements : list element) place :
  place ∈ omap (hidden_reading knownVocab) elements ↔
  ∃ e rubyText,
    e ∈ elements ∧ has knownVocab (getTextWithoutRuby e.2) = true
    ∧ querySelector "rt" e = Some rubyText ∧ rubyText.1 = place.
Proof.
  rewrite list_elem_of_omap. unfold hidden_reading. split.
  - intros (e & He & H). exists e.
    destruct (has knownVocab _); [| done].
    destruct (querySelector "rt" e) as [rubyText|]; [| done].
    exists rubyText. simpl in H. naive_solver.
  - intros (e & rubyText & He & Hknown & Hq & <-). exists e.
    by rewrite Hknown, Hq.
Qed.

(** What the walk does where it returns.  When every ruby element with a
    known base text has an [rt] element somewhere below it,
    [findRubyInPage] returns, and afterwards the elements marked hidden
    are, besides those that already were, the first [rt] element below each
    ruby element whose base text is known, first in tree order and at any
    depth; the style of every other element is as it was. *)
Lemma findRubyInPage_hides_first_rt knownVocab document visibility :
  (∀ e, e ∈ querySelectorAll "ruby" document →
        has knownVocab (getTextWithoutRuby e.2) = true →
        is_Some (querySelector "rt" e)) →
  ∃ after,
    findRubyInPage knownVocab document visibility = (Normal, after)
    ∧ (∀ e, e ∈ querySelectorAll "ruby" document →
            has knownVocab (getTextWithoutRuby e.2) = true →
            ∃ rubyText, querySelector "rt" e = Some rubyText
                        ∧ after !! rubyText.1 = Some "hidden")
    ∧ (∀ place,
         (∀ e rubyText,
            e ∈ querySelectorAll "ruby" document →
            has knownVocab (getTextWithoutRuby e.2) = true →
            querySelector "rt" e = Some rubyText → rubyText.1 ≠ place) →
         after !! place = visibility !! place).
Proof.
  intros Hall. eexists. split_and!.
  - apply forEach_hides, Forall_forall. intros e He.
    apply throws_on_false. by apply Hall.
  - intros e He Hknown. destruct (Hall e He Hknown) as [rubyText Hq].
    exists rubyText. split; [done |].
    rewrite lookup_hide_all, bool_decide_eq_true_2; [done |].
    apply elem_of_hidden_readings. by exists e, rubyText.
  - intros place Hplace. rewrite lookup_hide_all, bool_decide_eq_false_2; [done |].
    intros (e & rubyText & He & Hknown & Hq & Heq)%elem_of_hidden_readings.
    by apply (Hplace e rubyText).
Qed.

Lemma findRubyInPage_nested_rubies :
  findRubyInPage {[ "明日" ]} nested_rubies ∅
  = (Normal, {[ [0; 0; 1] := "hidden" ]}).
Proof. by vm_compute. Qed.

Lemma findRubyInPage_hides_first_rt_witness :
  ∃ after,
    findRubyInPage {[ "明日" ]} nested_rubies ∅ = (Normal, after)
    ∧ after !! [0; 0; 1] = Some "hidden"
    ∧ after !! [0; 2] = None.
Proof.
  destruct (findRubyInPage_hides_first_rt {[ "明日" ]} nested_rubies ∅)
    as (after & Hrun & Hhid & Hrest).
  { intros e He Hknown. vm_compute in He.
    apply elem_of_cons in He as [->|He];
      [eexists; vm_compute; reflexivity |].
    apply elem_of_cons in He as [->|He]; [by vm_compute in Hknown |].
    by apply elem_of_nil in He. }
  exists after. split; [done |].
  rewrite findRubyInPage_nested_rubies in Hrun.
  injection Hrun as <-. by vm_compute.
Defined.

(** On a ruby element nested in another the walk hides the first [rt]
    below the outer element, which is the reading of the inner one, whose
    base text is not known; the reading child of the outer element stays
    visible. *)
Lemma findRubyInPage_not_exactly_known :
  ¬ hides_exactly_known {[ "明日" ]} nested_rubies ∅
      (findRubyInPage {[ "明日" ]} nested_rubies ∅).2.
Proof.
  rewrite findRubyInPage_nested_rubies. intros H.
  specialize (H ([0; 0], Element "RUBY" [Text "明"; Element "RT" []])).
  assert (has {[ "明日" ]}
            (getTextWithoutRuby
               (Element "RUBY" [Text "明"; Element "RT" []])) = false)
    as Hunknown by by vm_compute.
  cbn [snd fst] in H. rewrite Hunknown in H.
  specialize (H ltac:(vm_compute; set_solver) [0; 0; 1]
                ltac:(by exists [1])).
  by vm_compute in H.
Qed.

(** Of the several readings of one ruby element only the first is
    hidden. *)
Lemma findRubyInPage_two_readings :
  getTextWithoutRuby
    (Element "RUBY"
       [Text "東"; Element "RT" [Text "とう"];
        Text "京"; Element "RT" [Text "きょう"]])
  = "東京"
  ∧ findRubyInPage {[ "東京" ]} two_readings ∅
    = (Normal, {[ [0; 1] := "hidden" ]})
  ∧ ¬ hides_exactly_known {[ "東京" ]} two_readings ∅
        (findRubyInPage {[ "東京" ]} two_readings ∅).2.
Proof.
  assert (findRubyInPage {[ "東京" ]} two_readings ∅
          = (Normal, {[ [0; 1] := "hidden" ]})) as Hrun by by vm_compute.
  split_and!; [by vm_compute | done |].
  rewrite Hrun. intros H.
  specialize (H ([0], Element "RUBY"
                        [Text "東"; Element "RT" [Text "とう"];
                         Text "京"; Element "RT" [Text "きょう"]])
                ltac:(vm_compute; left)).
  assert (has {[ "東京" ]}
            (getTextWithoutRuby
               (Element "RUBY"
                  [Text "東"; Element "RT" [Text "とう"];
                   Text "京"; Element "RT" [Text "きょう"]])) = true)
    as Hknown by by vm_compute.
  cbn [snd fst] in H. rewrite Hknown in H.
  specialize (H [0; 3] ltac:(vm_compute; set_solver)).
  by vm_compute in H.
Qed.

(** C1.  The reading of a ruby element is held in its [rt] children, which
    [getTextWithoutRuby] leaves out of the base text, and the walk is to
    hide it for the elements with a known base text and to leave the
    others as they are.  [findRubyInPage] does not hide the [rt] children
    of the element found but the first [rt] element below it.  On a ruby
    element with a known base text that holds another ruby element, it
    hides the reading of the inner element, whose base text is not known,
    and leaves the reading child of the outer one visible; of the two
    reading children of one ruby element it hides the first only. *)
Theorem findRubyInPage_hides_other_reading :
  (∃ outer inner,
     querySelectorAll "ruby" nested_rubies = [([0], outer); ([0; 0], inner)]
     ∧ getTextWithoutRuby outer = "明日"
     ∧ reading_children ([0], outer) = [[0; 2]]
     ∧ getTextWithoutRuby inner = "明"
     ∧ reading_children ([0; 0], inner) = [[0; 0; 1]])
  ∧ findRubyInPage {[ "明日" ]} nested_rubies ∅
    = (Normal, {[ [0; 0; 1] := "hidden" ]})
  ∧ ¬ hides_exactly_known {[ "明日" ]} nested_rubies ∅
        (findRubyInPage {[ "明日" ]} nested_rubies ∅).2
  ∧ (∃ word,
       querySelectorAll "ruby" two_readings = [([0], word)]
       ∧ getTextWithoutRuby word = "東京"
       ∧ reading_children ([0], word) = [[0; 1]; [0; 3]])
  ∧ findRubyInPage {[ "東京" ]} two_readings ∅
    = (Normal, {[ [0; 1] := "hidden" ]})
  ∧ ¬ hides_exactly_known {[ "東京" ]} two_readings ∅
        (findRubyInPage {[ "東京" ]} two_readings ∅).2.
Proof.
  split_and!.
  - do 2 eexists. split_and!; [vm_compute; reflexivity | by vm_compute..].
  - apply findRubyInPage_nested_rubies.
  - apply findRubyInPage_not_exactly_known.
  - eexists. split_and!; [vm_compute; reflexivity | by vm_compute..].
  - apply findRubyInPage_two_readings.
  - apply findRubyInPage_two_readings.
Qed.

(** C9, as amended.  If some ruby element of the document has a known base
    text and no [rt] element anywhere below it, [findRubyInPage] throws at
    the first such element in document order: every ruby element before it
    with a known base text has an [rt] element below it, whose first one is
    hidden; the elements after it are not processed, so that the style of
    every place other than those readings is as it was. *)
Theorem findRubyInPage_throws_without_rt knownVocab document visibility e :
  e ∈ querySelectorAll "ruby" document →
  has knownVocab (getTextWithoutRuby e.2) = true →
  querySelector "rt" e = None →
  ∃ before foundWord after,
    querySelectorAll "ruby" document = before ++ foundWord :: after
    ∧ has knownVocab (getTextWithoutRuby foundWord.2) = true
    ∧ querySelector "rt" foundWord = None
    ∧ Forall (λ e', has knownVocab (getTextWithoutRuby e'.2) = true →
                    is_Some (querySelector "rt" e')) before
    ∧ findRubyInPage knownVocab document visibility
      = (TypeError,
         hide_all (omap (hidden_reading knownVocab) before) visibility)
    ∧ (∀ e' rubyText,
         e' ∈ before → has knownVocab (getTextWithoutRuby e'.2) = true →
         querySelector "rt" e' = Some rubyText →
         (findRubyInPage knownVocab document visibility).2 !! rubyText.1
         = Some "hidden")
    ∧ (∀ place,
         (∀ e' rubyText,
            e' ∈ before → has knownVocab (getTextWithoutRuby e'.2) = true →
            querySelector "rt" e' = Some rubyText → rubyText.1 ≠ place) →
         (findRubyInPage knownVocab document visibility).2 !! place
         = visibility !! place).
Proof.
  intros He Hknown Hq. unfold findRubyInPage.
  destruct (first_throw knownVocab (querySelectorAll "ruby" document))
    as [Hall|(before & foundWord & after & Heq & Hb & Hthrow)].
  - rewrite Forall_forall in Hall. specialize (Hall e He).
    destruct (proj1 (throws_on_false _ _) Hall Hknown) as [? Hsome].
    congruence.
  - exists before, foundWord, after. rewrite Heq.
    rewrite (forEach_throws _ _ _ _ _ Hb Hthrow). cbn [snd].
    unfold throws_on in Hthrow.
    apply andb_true_iff in Hthrow as [Hk Hn%bool_decide_eq_true].
    split_and!; [done.. | | done | |].
    + eapply Forall_impl; [exact Hb |]. intros e' He'.
      by apply throws_on_false.
    + intros e' rubyText He' Hknown' Hq'.
      rewrite lookup_hide_all, bool_decide_eq_true_2; [done |].
      apply elem_of_hidden_readings. by exists e', rubyText.
    + intros place Hplace.
      rewrite lookup_hide_all, bool_decide_eq_false_2; [done |].
      intros (e' & rubyText & He' & Hknown' & Hq' & Heq')%elem_of_hidden_readings.
      by apply (Hplace e' rubyText).
Qed.

(** On a document whose second and fourth ruby elements have no reading,
    the walk stops at the second: the reading of the first is hidden, that
    of the third is not. *)
Lemma findRubyInPage_throws_without_rt_witness :
  findRubyInPage {[ "明日"; "日本語"; "本" ]} missing_readings_between ∅
  = (TypeError, {[ [0; 1] := "hidden" ]}).
Proof.
  destruct (findRubyInPage_throws_without_rt {[ "明日"; "日本語"; "本" ]}
              missing_readings_between ∅
              ([3], Element "RUBY" [Text "日本語"]))
    as (before & foundWord & after & Hsplit & Hknown & Hnone & Hbefore & Hrun
        & _).
  - vm_compute. do 3 right. left.
  - vm_compute. reflexivity.
  - vm_compute. reflexivity.
  - rewrite Hrun. f_equal.
    assert (querySelectorAll "ruby" missing_readings_between
            = [([0], Element "RUBY" [Text "明日"; Element "RT" [Text "あした"]]);
               ([1], Element "RUBY" [Text "日本語"]);
               ([2], Element "RUBY" [Text "本"; Element "RT" [Text "ほん"]]);
               ([3], Element "RUBY" [Text "日本語"])]) as Hall
      by by vm_compute.
    rewrite Hall in Hsplit.
    destruct before as [|e0 [|e1 before]].
    + injection Hsplit as <- _. discriminate Hnone.
    + injection Hsplit as <- _ _. by vm_compute.
    + injection Hsplit as <- <- _.
      apply Forall_cons in Hbefore as [_ Hbefore].
      apply Forall_cons in Hbefore as [Hsecond _].
      destruct Hsecond as [rubyText Hsome]; [by vm_compute |].
      discriminate Hsome.
Defined.

Lemma findRubyInPage_missing_reading :
  findRubyInPage {[ "日本語"; "明日" ]} missing_reading ∅ = (TypeError, ∅).
Proof. by vm_compute. Qed.

(** C9, as stated, fails where the [rt] element is not a child of the ruby
    element but lies deeper: [querySelector] finds it, and the call returns. *)
Lemma findRubyInPage_returns_without_rt_child :
  ([0], Element "RUBY" [Text "日本語"; Element "RTC" [Element "RT" []]])
    ∈ querySelectorAll "ruby" contained_reading
  ∧ has {[ "日本語" ]}
      (getTextWithoutRuby
         (Element "RUBY" [Text "日本語"; Element "RTC" [Element "RT" []]]))
    = true
  ∧ reading_children
      ([0], Element "RUBY" [Text "日本語"; Element "RTC" [Element "RT" []]])
    = []
  ∧ findRubyInPage {[ "日本語" ]} contained_reading ∅
    = (Normal, {[ [0; 1; 0] := "hidden" ]}).
Proof. split_and!; [vm_compute; left | by vm_compute..]. Qed.

End DomFacts.

(** ** The subject resolver and its pagination loops *)

Section WaniKaniFacts.
Import WaniKani.
Variable decodeURIComponent : string → string.
Variable apiToken : string.

(** The three ways a cursor can be: a next page, an empty string,
    nothing. *)
Ltac cursor_cases jsonData :=
  let u := fresh "u" in
  destruct (next_url jsonData) as [u|]; [destruct (truthy u) |].

Lemma addVocabFromSubjects_union subjectsAsJson vocabSet :
  addVocabFromSubjects subjectsAsJson vocabSet
  = vocabSet ∪ list_to_set (slug <$> data subjectsAsJson).
Proof.
  unfold addVocabFromSubjects. revert vocabSet.
  induction (data subjectsAsJson) as [|subject l IH]; intros vocabSet;
    cbn [fold_left fmap list_fmap list_to_set].
  - set_solver.
  - rewrite IH. set_solver.
Qed.

Lemma all_slugs_cons page pages :
  all_slugs (page :: pages)
  = list_to_set (slug <$> data page) ∪ all_slugs pages.
Proof.
  unfold all_slugs. cbn [mbind list_bind]. rewrite fmap_app.
  by rewrite list_to_set_app_L.
Qed.

Lemma elem_of_lookupSubjectIds assignmentsAsJson subjectIds x :
  x ∈ lookupSubjectIds assignmentsAsJson subjectIds ↔
  x ∈ subjectIds ∨ ∃ val, val ∈ data assignmentsAsJson ∧ subject_id val = x.
Proof.
  unfold lookupSubjectIds. revert subjectIds.
  induction (data assignmentsAsJson) as [|val l IH]; intros subjectIds;
    cbn [fold_left].
  - split; [by left |]. intros [?|(val & Hval & _)]; [done |].
    by apply elem_of_nil in Hval.
  - rewrite IH. unfold Set_add. setoid_rewrite elem_of_cons.
    case_bool_decide as Hin.
    + split; [naive_solver |].
      intros [?|(val' & [->|?] & <-)]; [by left | by left | right; eauto].
    + rewrite elem_of_app, list_elem_of_singleton. naive_solver.
Qed.



Lemma linked_cons {A} (p : collection A) pages :
  linked (p :: pages) = true →
  (pages = [] ∧ more_pages p = false)
  ∨ (more_pages p = true ∧ linked pages = true).
Proof.
  cbn [linked]. destruct pages as [|q pages].
  - intros ?%negb_true_iff. by left.
  - intros [??]%andb_true_iff. by right.
Qed.

(** In a list of pages one of which has no next page, the pages up to the
    first such page are linked. *)
Lemma linked_prefix {A} (pages : list (collection A)) :
  (∃ p, p ∈ pages ∧ more_pages p = false) →
  ∃ run rest, pages = run ++ rest ∧ linked run = true.
Proof.
  induction pages as [|p pages IH].
  { intros (p & Hp & _). by apply elem_of_nil in Hp. }
  intros (q & Hq & Hlast). destruct (more_pages p) eqn:Hp.
  - apply elem_of_cons in Hq as [->|Hq]; [congruence |].
    destruct IH as (run & rest & -> & Hrun); [by exists q |].
    exists (p :: run), rest. split; [done |].
    cbn [linked]. rewrite Hp, Hrun. by destruct run.
  - exists [p], pages. split; [done |]. cbn [linked]. by rewrite Hp.
Qed.

Lemma length_follow_ups {A} (pages : list (collection A)) :
  linked pages = true →
  S (length (follow_ups decodeURIComponent apiToken pages)) = length pages.
Proof.
  induction pages as [|p pages IH]; [done |].
  intros [[-> Hp]|[Hp Hl]]%linked_cons; unfold follow_ups, more_pages in *;
    cbn [omap list_omap length].
  - destruct (next_url p) as [u|]; [| done]. by rewrite Hp.
  - destruct (next_url p) as [u|]; [| done]. rewrite Hp.
    cbn [length]. f_equal. by apply IH.
Qed.

(** The inner loop over a linked run of pages. *)
Lemma lookupVocab_loop_linked pages rest nextPage vocabSet log :
  linked pages = true →
  lookupVocab_loop decodeURIComponent apiToken ((Body <$> pages) ++ rest)
    nextPage vocabSet log
  = (Fulfilled (), vocabSet ∪ all_slugs pages, rest,
     log ++ apiEndpoint decodeURIComponent apiToken nextPage
         :: follow_ups decodeURIComponent apiToken pages).
Proof.
  revert nextPage vocabSet log.
  induction pages as [|p pages IH]; intros nextPage vocabSet log; [done |].
  intros Hl. rewrite all_slugs_cons. cbn [app fmap list_fmap lookupVocab_loop].
  rewrite addVocabFromSubjects_union.
  unfold follow_ups. cbn [omap list_omap].
  apply linked_cons in Hl as [[-> Hp]|[Hp Hl]]; unfold more_pages in Hp.
  - assert (vocabSet ∪ list_to_set (slug <$> data p) ∪ all_slugs []
            = vocabSet ∪ (list_to_set (slug <$> data p) ∪ all_slugs []))
      as <- by set_solver.
    assert (all_slugs [] = ∅) as -> by done. rewrite (right_id_L ∅ (∪)).
    destruct (next_url p) as [u|]; [by rewrite Hp | done].
  - destruct (next_url p) as [u|]; [| done]. rewrite Hp.
    rewrite IH by done. rewrite <- (assoc_L (++)).
    by rewrite (assoc_L (∪)).
Qed.

Lemma lookupVocab_linked pages rest subjectIds vocabSet feed log :
  linked pages = true →
  lookupVocab decodeURIComponent apiToken subjectIds vocabSet
    (Network feed ((Body <$> pages) ++ rest) log)
  = (Fulfilled (), vocabSet ∪ all_slugs pages,
     Network feed rest
       (log ++ subject_requests decodeURIComponent apiToken subjectIds pages)).
Proof.
  intros Hl. unfold lookupVocab. cbn [subjects_feed sent assignments_feed].
  by rewrite lookupVocab_loop_linked.
Qed.

Lemma all_slugs_app pages1 pages2 :
  all_slugs (pages1 ++ pages2) = all_slugs pages1 ∪ all_slugs pages2.
Proof.
  unfold all_slugs. by rewrite bind_app, fmap_app, list_to_set_app_L.
Qed.

(** The outer loop over linked pages of assignments, each answered by a
    linked run of pages of subjects. *)
Lemma getAssignments_loop_rounds (rounds : list round) restA restS nextPage
    knownVocab log :
  linked (fst <$> rounds) = true →
  Forall (λ r : round, linked r.2 = true) rounds →
  getAssignments_loop decodeURIComponent apiToken
    ((Body <$> (fst <$> rounds)) ++ restA) nextPage knownVocab
    ((Body <$> (rounds ≫= snd)) ++ restS) log
  = (Fulfilled (), knownVocab ∪ all_slugs (rounds ≫= snd),
     Network restA restS
       (log ++ assignment_requests decodeURIComponent apiToken nextPage
                 rounds)).
Proof.
  revert nextPage knownVocab log.
  induction rounds as [|[page answers] rounds IH];
    intros nextPage knownVocab log Hl Hall; [done |].
  apply Forall_cons in Hall as [Hanswers Hall]. cbn [snd] in Hanswers.
  cbn [fmap list_fmap fst] in Hl.
  cbn [fmap list_fmap fst app mbind list_bind snd getAssignments_loop
       assignment_requests].
  rewrite fmap_app, <- (assoc_L (++)), lookupVocab_linked by done.
  rewrite all_slugs_app, (assoc_L (∪)).
  cbn [subjects_feed sent].
  apply linked_cons in Hl as [[Hnil Hp]|[Hp Hl]]; unfold more_pages in Hp.
  - apply fmap_nil_inv in Hnil as ->.
    cbn [fmap list_fmap mbind list_bind app].
    assert (all_slugs [] = ∅) as -> by done. rewrite (right_id_L ∅ (∪)).
    destruct (next_url page) as [u|].
    + rewrite Hp. cbn [assignment_requests]. rewrite app_nil_r.
      by rewrite <- (assoc_L (++)).
    + rewrite app_nil_r. by rewrite <- (assoc_L (++)).
  - destruct (next_url page) as [u|]; [| done]. rewrite Hp.
    rewrite IH by done. by rewrite <- !(assoc_L (++)).
Qed.

Lemma length_assignment_requests (rounds : list round) nextPage :
  linked (fst <$> rounds) = true →
  Forall (λ r : round, linked r.2 = true) rounds →
  length (assignment_requests decodeURIComponent apiToken nextPage rounds)
  = length rounds + length (rounds ≫= snd).
Proof.
  revert nextPage.
  induction rounds as [|[page answers] rounds IH]; intros nextPage Hl Hall;
    [done |].
  apply Forall_cons in Hall as [Hanswers Hall]. cbn [snd] in Hanswers.
  cbn [assignment_requests mbind list_bind snd length].
  rewrite !length_app. unfold subject_requests. cbn [length].
  rewrite (length_follow_ups answers Hanswers).
  cbn [fmap list_fmap fst] in Hl.
  apply linked_cons in Hl as [[Hnil Hp]|[Hp Hl]]; unfold more_pages in Hp.
  - apply fmap_nil_inv in Hnil as ->.
    destruct (next_url page); cbn [assignment_requests mbind list_bind length];
      lia.
  - destruct (next_url page) as [u|]; [| done].
    rewrite (IH u Hl Hall). lia.
Qed.








(** C7.  Served pages one of which has no next page, [lookupVocab] returns
    after one fetch for each page up to and including the first such page,
    and takes no later response.  [getAssignments] likewise returns after
    one fetch for each page of assignments up to and including the first
    without a next page, and one for each page of subjects of the lookups
    in between. *)
Theorem pagination_terminates :
  (∀ (pages : list (collection subject)) subjectIds vocabSet feed log,
     (∃ p, p ∈ pages ∧ more_pages p = false) →
     ∃ run rest vocabSet' requests,
       pages = run ++ rest ∧ linked run = true
       ∧ lookupVocab decodeURIComponent apiToken subjectIds vocabSet
           (Network feed (Body <$> pages) log)
         = (Fulfilled (), vocabSet',
            Network feed (Body <$> rest) (log ++ requests))
       ∧ length requests = length run)
  ∧ (∀ (rounds : list round) restA restS knownVocab log,
       linked (fst <$> rounds) = true →
       Forall (λ r : round, linked r.2 = true) rounds →
       ∃ knownVocab' requests,
         getAssignments decodeURIComponent apiToken knownVocab
           (Network ((Body <$> (fst <$> rounds)) ++ restA)
              ((Body <$> (rounds ≫= snd)) ++ restS) log)
         = (Fulfilled (), knownVocab',
            Network restA restS (log ++ requests))
         ∧ length requests = length rounds + length (rounds ≫= snd)).
Proof.
  split.
  - intros pages subjectIds vocabSet feed log Hlast.
    destruct (linked_prefix pages Hlast) as (run & rest & -> & Hl).
    exists run, rest. do 2 eexists. split_and!; [done.. | |].
    + rewrite fmap_app. by apply lookupVocab_linked.
    + unfold subject_requests. cbn [length]. by apply length_follow_ups.
  - intros rounds restA restS knownVocab log Hl Hall. do 2 eexists. split.
    + unfold getAssignments. cbn [assignments_feed subjects_feed sent].
      by apply getAssignments_loop_rounds.
    + by apply length_assignment_requests.
Qed.

Lemma lookupSubjectIds_unfiltered (page : collection assignment) x :
  x ∈ lookupSubjectIds page [] ↔ ∃ val, val ∈ data page ∧ subject_id val = x.
Proof.
  rewrite elem_of_lookupSubjectIds. split; [| by right].
  intros [Hx|?]; [by apply elem_of_nil in Hx | done].
Qed.

(** The log of requests only grows, and every call starts by sending the
    request for the page it is given. *)
Lemma lookupVocab_loop_sent feed nextPage vocabSet log :
  ∃ later,
    (lookupVocab_loop decodeURIComponent apiToken feed nextPage vocabSet log).2
    = log ++ apiEndpoint decodeURIComponent apiToken nextPage :: later.
Proof.
  revert nextPage vocabSet log.
  induction feed as [|[|jsonData] feed IH]; intros nextPage vocabSet log;
    cbn [lookupVocab_loop]; [by exists [].. |].
  cursor_cases jsonData;
    [| by exists []..].
  edestruct IH as [later ->]. eexists. by rewrite <- (assoc_L (++)).
Qed.

Lemma lookupVocab_sent subjectIds vocabSet net :
  ∃ later,
    sent (lookupVocab decodeURIComponent apiToken subjectIds vocabSet net).2
    = sent net
      ++ apiEndpoint decodeURIComponent apiToken (subjects_url subjectIds)
      :: later.
Proof.
  unfold lookupVocab.
  destruct (lookupVocab_loop_sent (subjects_feed net)
              (subjects_url subjectIds) vocabSet (sent net)) as [later H].
  destruct (lookupVocab_loop _ _ _ _ _ _) as [[[p vocabSet'] feed'] log'].
  by exists later.
Qed.

Lemma getAssignments_loop_sent feed nextPage knownVocab subjects log :
  ∃ later,
    sent (getAssignments_loop decodeURIComponent apiToken feed nextPage
            knownVocab subjects log).2
    = log ++ apiEndpoint decodeURIComponent apiToken nextPage :: later.
Proof.
  revert nextPage knownVocab subjects log.
  induction feed as [|[|jsonData] feed IH];
    intros nextPage knownVocab subjects log; cbn [getAssignments_loop];
    [by exists [].. |].
  destruct (lookupVocab_sent (lookupSubjectIds jsonData []) knownVocab
              (Network feed subjects
                 (log ++ [apiEndpoint decodeURIComponent apiToken nextPage])))
    as [later H].
  destruct (lookupVocab _ _ _ _ _) as [[[[]| |] knownVocab'] net'];
    cbn [snd sent] in H |- *;
    [| by eexists; rewrite H, <- (assoc_L (++))..].
  cursor_cases jsonData;
    [| by eexists; cbn [snd]; rewrite H, <- (assoc_L (++))..].
  edestruct IH as [later' ->]. rewrite H. eexists.
  by rewrite <- !(assoc_L (++)).
Qed.

Lemma getAssignments_loop_lookup jsonData feed nextPage knownVocab subjects
    log :
  ∃ later,
    sent (getAssignments_loop decodeURIComponent apiToken
            (Body jsonData :: feed) nextPage knownVocab subjects log).2
    = log ++ apiEndpoint decodeURIComponent apiToken nextPage
          :: apiEndpoint decodeURIComponent apiToken
               (subjects_url (lookupSubjectIds jsonData []))
          :: later.
Proof.
  cbn [getAssignments_loop].
  destruct (lookupVocab_sent (lookupSubjectIds jsonData []) knownVocab
              (Network feed subjects
                 (log ++ [apiEndpoint decodeURIComponent apiToken nextPage])))
    as [later H].
  destruct (lookupVocab _ _ _ _ _) as [[[[]| |] knownVocab'] net'];
    cbn [snd sent] in H |- *;
    [| by eexists; rewrite H, <- (assoc_L (++))..].
  cursor_cases jsonData;
    [| by eexists; cbn [snd]; rewrite H, <- (assoc_L (++))..].
  edestruct getAssignments_loop_sent as [later' ->]. rewrite H. eexists.
  by rewrite <- !(assoc_L (++)).
Qed.

(** C5, as amended.  The script does not filter the records itself.  The
    first request of [getAssignments] asks the service for the stages 5 to
    9 and for the kinds kanji and vocabulary; of every page served, every
    record gives its subject to the lookup that follows, whatever stage and
    kind it carries.  So the identifiers handed on are those of the
    qualifying records when the pages hold qualifying records only. *)
Theorem assignments_filtered_by_query_only :
  (∀ knownVocab net,
     ∃ later,
       sent (getAssignments decodeURIComponent apiToken knownVocab net).2
       = sent net
         ++ Request
              (decodeURIComponent
                 "https://api.wanikani.com/v2/assignments?srs_stages=5,6,7,8,9&subject_types=kanji,vocabulary")
              ("Bearer " +:+ apiToken)
         :: later)
  ∧ (∀ (page : collection assignment) x,
       x ∈ lookupSubjectIds page [] ↔
       ∃ val, val ∈ data page ∧ subject_id val = x)
  ∧ (∀ page feed nextPage knownVocab subjects log,
       ∃ later,
         sent (getAssignments_loop decodeURIComponent apiToken
                 (Body page :: feed) nextPage knownVocab subjects log).2
         = log ++ apiEndpoint decodeURIComponent apiToken nextPage
               :: apiEndpoint decodeURIComponent apiToken
                    (subjects_url (lookupSubjectIds page []))
               :: later)
  ∧ (∀ page : collection assignment,
       Forall (λ val, qualifies val = true) (data page) →
       only_qualifying_contribute page).
Proof.
  split_and!.
  - intros knownVocab net. apply getAssignments_loop_sent.
  - apply lookupSubjectIds_unfiltered.
  - intros. apply getAssignments_loop_lookup.
  - intros page Hall x (val & Hval & <-)%lookupSubjectIds_unfiltered.
    exists val. rewrite Forall_forall in Hall. auto.
Qed.

End WaniKaniFacts.

Section WaniKaniExamples.
Import WaniKani.


Lemma pagination_terminates_witness :
  (∃ vocabSet' requests,
     lookupVocab (λ s, s) "token" [440; 2467]%Z ∅
       (Network [] [Body page1; Body page2; Body page3] [])
     = (Fulfilled (), vocabSet', Network [] [Body page3] requests)
     ∧ length requests = 2)
  ∧ (∃ knownVocab' requests,
       getAssignments (λ s, s) "token" ∅
         (Network [Body assignments1; Body assignments2; FetchRejected]
            [Body page1; Body page2; Body page3] [])
       = (Fulfilled (), knownVocab', Network [FetchRejected] [] requests)
       ∧ length requests = 5).
Proof.
  destruct (pagination_terminates (λ s, s) "token") as [Hvocab Hassignments].
  split.
  - destruct (Hvocab [page1; page2; page3] [440; 2467]%Z ∅ [] [])
      as (run & rest & vocabSet' & requests & Hsplit & Hl & Hrun & Hlen).
    { exists page2. split; [right; left | reflexivity]. }
    destruct run as [|p1 [|p2 [|p3 run]]]; try discriminate Hl.
    + injection Hsplit as <- <-. discriminate Hl.
    + injection Hsplit as <- <- <-. by exists vocabSet', requests.
    + injection Hsplit as <- <- <- ?. discriminate Hl.
  - destruct (Hassignments
                [(assignments1, [page1; page2]); (assignments2, [page3])]
                [FetchRejected] [] ∅ [])
      as (knownVocab' & requests & Hrun & Hlen);
      [reflexivity | by repeat constructor |].
    by exists knownVocab', requests.
Defined.

Lemma assignments_filtered_by_query_only_witness :
  only_qualifying_contribute assignments1.
Proof.
  destruct (assignments_filtered_by_query_only (λ s, s) "token")
    as (_ & _ & _ & H).
  apply H. by repeat constructor.
Defined.

(** C5, as stated, fails on a page with records below the fifth stage or of
    another kind: their subjects are looked up with the others. *)
Lemma mixed_batch_all_contribute :
  lookupSubjectIds mixed_batch [] = [440; 8; 2467]%Z
  ∧ List.filter qualifies (data mixed_batch) = [Assignment 440 "kanji" 5]
  ∧ sent (getAssignments (λ s, s) "token" ∅
            (Network [Body mixed_batch] [] [])).2
    = [Request
         "https://api.wanikani.com/v2/assignments?srs_stages=5,6,7,8,9&subject_types=kanji,vocabulary"
         "Bearer token";
       Request "https://api.wanikani.com/v2/subjects?ids=440,8,2467"
         "Bearer token"]
  ∧ ¬ only_qualifying_contribute mixed_batch.
Proof.
  split_and!; [by vm_compute.. |].
  intros H. destruct (H 8%Z) as (val & Hval & Hq & Hid).
  { vm_compute. set_solver. }
  vm_compute in Hval.
  repeat (apply elem_of_cons in Hval as [->|Hval]; [by vm_compute in Hq, Hid |]).
  by apply elem_of_nil in Hval.
Qed.

End WaniKaniExamples.

(** ** The credential provider *)

Section CredentialFacts.
Import Credential.
Variable decodeURIComponent : string → string.

(** C8.  A token found in the storage is returned as it is: no prompt is
    shown, no request is sent, and the storage is left as it was, whatever
    the reader or the network would have answered. *)
Theorem getApiToken_stored store token answer validated :
  store !! "WK_API_TOKEN" = Some (str token) → token ≠ EmptyString →
  getApiToken decodeURIComponent store answer validated
  = (Fulfilled (str token), store, []).
Proof.
  intros Hstore Htoken. unfold getApiToken, GM_getValue. rewrite Hstore.
  cbn [default from_option id truthy_value]. unfold truthy.
  by destruct (String.eqb_spec token "").
Qed.

(** When the validation request fails to reach the service, the handler
    logs the error and the call then throws: its promise is rejected. *)
Lemma getApiToken_unreachable store answer :
  truthy_value (GM_getValue "WK_API_TOKEN" store) = false →
  (getApiToken decodeURIComponent store answer ValidationUnreachable).1
  = (Rejected, store).
Proof. intros Hstore. unfold getApiToken. by rewrite Hstore. Qed.

End CredentialFacts.

Section CredentialExamples.
Import Credential.

Lemma getApiToken_stored_witness :
  getApiToken (λ s, s) {[ "WK_API_TOKEN" := str "token" ]} None
    ValidationUnreachable
  = (Fulfilled (str "token"), {[ "WK_API_TOKEN" := str "token" ]}, []).
Proof.
  apply (getApiToken_stored (λ s, s) {[ "WK_API_TOKEN" := str "token" ]}
           "token" None ValidationUnreachable).
  - reflexivity.
  - discriminate.
Defined.

(** C4.  With nothing in the storage and an answer to the prompt, a
    validation request that fails to reach the service is to leave the
    storage as it is and to give [undefined], as the description of
    [getApiToken] says of a token that is not valid and as its handler for
    the failed fetch prepares.  The handler only logs the error: [response]
    is then undefined, reading [response.ok] throws, and the promise is
    rejected.  The storage is left as it is. *)
Theorem getApiToken_network_error :
  getApiToken (λ s, s) ∅ (Some "token") ValidationUnreachable
  = (Rejected, ∅,
     [Prompted "Please enter your WaniKani API Token to continue:";
      Fetched (Request "https://api.wanikani.com/v2/voice_actors"
                 "Bearer token");
      Logged])
  ∧ (getApiToken (λ s, s) ∅ (Some "token") ValidationUnreachable).1.1
    ≠ Fulfilled undefined
  ∧ ¬ resolves_as_specified ∅ (Some "token") ValidationUnreachable
        (getApiToken (λ s, s) ∅ (Some "token") ValidationUnreachable).
Proof.
  split_and!; [reflexivity | discriminate |].
  intros [_ H]. destruct H as [H _]; [by right; left |]. discriminate H.
Qed.

End CredentialExamples.

(* ===================================================================== *)
(** * Further properties of the script *)
(* ===================================================================== *)

(** ** The embedded-markup strategy *)

Section DictionaryMore.
Import Dictionary.

Lemma no_lt_char c s :
  no_lt (String c s) = true ↔ c ≠ "<"%char ∧ no_lt s = true.
Proof.
  cbn [no_lt]. rewrite andb_true_iff, negb_true_iff.
  destruct (Ascii.eqb_spec c "<"); naive_solver.
Qed.

Lemma replaceAll_plain f plain s :
  no_lt plain = true →
  replaceAll f (plain +:+ s) = plain +:+ replaceAll f s.
Proof.
  induction plain as [|c plain IH]; [done |].
  intros [Hc Hplain]%no_lt_char.
  rewrite !append_cons, replaceAll_char by done. f_equal. by apply IH.
Qed.

(** X1.  Text free of [<] at the start of a definition is copied as it is,
    and what follows is rewritten as if it stood alone; a definition free
    of [<] comes back unchanged. *)
Theorem rewrite_def_plain_prefix knownVocab plain s :
  no_lt plain = true →
  rewrite_def knownVocab (plain +:+ s) = plain +:+ rewrite_def knownVocab s
  ∧ rewrite_def knownVocab plain = plain.
Proof.
  intros Hplain. unfold rewrite_def. split; [by apply replaceAll_plain |].
  rewrite <- (append_empty_r plain) at 1.
  by rewrite replaceAll_plain, replaceAll_empty, append_empty_r.
Qed.

Lemma rewrite_def_plain_prefix_witness :
  rewrite_def {[ "日本語" ]}
    ("今日は" +:+ "<ruby><rb>日本語</rb><rt>にほんご</rt></ruby>")
  = "今日は" +:+ rewrite_def {[ "日本語" ]}
                  "<ruby><rb>日本語</rb><rt>にほんご</rt></ruby>"
  ∧ rewrite_def {[ "日本語" ]} "今日は" = "今日は".
Proof.
  apply (rewrite_def_plain_prefix {[ "日本語" ]} "今日は"). reflexivity.
Defined.

(** X2.  The rewrite never lengthens a definition, and it leaves the length
    as it was only when it leaves the text as it was: every replacement
    shows in the length. *)
Theorem rewrite_def_shortens_or_keeps knownVocab s :
  String.length (rewrite_def knownVocab s) ≤ String.length s
  ∧ (String.length (rewrite_def knownVocab s) = String.length s →
     rewrite_def knownVocab s = s).
Proof.
  split; [apply length_rewrite_def |].
  induction s as [s IH] using string_length_ind.
  unfold rewrite_def in *. rewrite replaceAll_unfold.
  destruct (rubyElementMatcherExp s) as [[[m w] rest]|] eqn:Hm.
  - pose proof (matcher_shrinks _ _ _ _ Hm) as Hlen.
    apply matcher_sound in Hm as (rd & -> & -> & Hw & Hr).
    pose proof (length_rewrite_def knownVocab rest) as Hrest.
    unfold rewrite_def in Hrest.
    rewrite !length_append, length_ruby_markup. unfold replacer at 1 3.
    destruct (has knownVocab w); rewrite ?length_ruby_markup; [lia |].
    intros Heq. f_equal. apply IH; [done | lia].
  - destruct s as [|c s]; [done |]. simpl. intros Heq. f_equal.
    apply IH; [simpl; lia | lia].
Qed.

Lemma rewrite_def_shortens_or_keeps_witness :
  String.length
    (rewrite_def {[ "日本語" ]}
       "<ruby><rb>明日</rb><rt>あした</rt></ruby>")
  ≤ String.length "<ruby><rb>明日</rb><rt>あした</rt></ruby>"
  ∧ rewrite_def {[ "日本語" ]} "<ruby><rb>明日</rb><rt>あした</rt></ruby>"
    = "<ruby><rb>明日</rb><rt>あした</rt></ruby>".
Proof.
  destruct (rewrite_def_shortens_or_keeps {[ "日本語" ]}
              "<ruby><rb>明日</rb><rt>あした</rt></ruby>") as [Hle Hkeep].
  split; [exact Hle | apply Hkeep; reflexivity].
Defined.

(** X3.  On a definition text in which every [<] belongs to an occurrence
    of the ruby pattern, rewriting for one set of known words and then for
    another gives what rewriting once for both sets together gives: words
    learnt later can be applied to a dictionary already rewritten. *)
Theorem rewrite_def_union knownVocab knownVocab' s :
  clean_markup s →
  rewrite_def knownVocab' (rewrite_def knownVocab s)
  = rewrite_def (knownVocab ∪ knownVocab') s.
Proof.
  induction 1 as [|c s Hc _ IH|word reading s Hw Hr _ IH].
  - done.
  - unfold rewrite_def in *. rewrite !replaceAll_char by done. by f_equal.
  - unfold rewrite_def in *. rewrite !replaceAll_ruby by done.
    unfold replacer at 2 4. unfold has.
    destruct (decide (word ∈ knownVocab)) as [Hk|Hk].
    + rewrite !bool_decide_eq_true_2 by set_solver.
      rewrite replaceAll_plain by done. by f_equal.
    + rewrite (bool_decide_eq_false_2 (word ∈ knownVocab)) by done.
      rewrite replaceAll_ruby by done. unfold replacer at 1. unfold has.
      rewrite (bool_decide_ext (word ∈ knownVocab ∪ knownVocab')
                 (word ∈ knownVocab')) by set_solver.
      by f_equal.
Qed.

Lemma rewrite_def_union_witness :
  rewrite_def {[ "明日" ]}
    (rewrite_def {[ "日" ]} "<ruby><rb>日</rb><rt>に</rt></ruby>a")
  = rewrite_def ({[ "日" ]} ∪ {[ "明日" ]})
      "<ruby><rb>日</rb><rt>に</rt></ruby>a".
Proof.
  apply rewrite_def_union.
  apply (clean_ruby "日" "に" "a"); [reflexivity | reflexivity |].
  apply clean_char; [discriminate | apply clean_empty].
Defined.

(** X4.  With nothing known the dictionary is left as it is, whatever its
    entries hold. *)
Theorem findRubyInDictionary_nothing_known entries :
  findRubyInDictionary ∅ entries = entries.
Proof.
  unfold findRubyInDictionary. apply map_eq. intros entryKey.
  rewrite lookup_fmap. destruct (entries !! entryKey) as [values|]; [| done].
  cbn [fmap option_fmap option_map]. f_equal.
  induction values as [|[d o] values IH]; [done |].
  cbn [map def other_fields]. rewrite IH. f_equal. f_equal.
  apply rewrite_def_unknown. intros. apply not_elem_of_empty.
Qed.

End DictionaryMore.

(** ** The live-DOM strategy *)

Section DomMore.
Import Dom.

(** Induction on a node, with the property at hand for all its children. *)
Lemma node_children_ind (P : node → Prop) :
  (∀ data, P (Text data)) →
  (∀ data, P (Comment data)) →
  (∀ name children, Forall P children → P (Element name children)) →
  ∀ n, P n.
Proof.
  intros HText HComment HElement. fix IH 1.
  intros [data|data|name children];
    [apply HText | apply HComment | apply HElement].
  induction children as [|child children IHchildren]; constructor;
    [apply IH | apply IHchildren].
Qed.

Lemma elem_of_numbered {A} (f : nat → node → list A) i siblings x :
  x ∈ numbered f i siblings ↔
  ∃ j n, siblings !! j = Some n ∧ x ∈ f (i + j) n.
Proof.
  revert i. induction siblings as [|n siblings IH]; intros i;
    cbn [numbered].
  - split; [by intros ?%elem_of_nil | by intros (j & n & ? & _)].
  - rewrite elem_of_app, IH. split.
    + intros [Hx|(j & n' & Hj & Hx)].
      * exists 0, n. by rewrite Nat.add_0_r.
      * exists (S j), n'. by rewrite Nat.add_succ_r.
    + intros ([|j] & n' & Hj & Hx).
      * left. injection Hj as <-. by rewrite Nat.add_0_r in Hx.
      * right. exists j, n'. by rewrite Nat.add_succ_r in Hx.
Qed.

(** The elements found at or below a node carry places at or below its
    own. *)
Lemma inclusive_descendants_below n here d :
  d ∈ inclusive_descendants here n → here `prefix_of` d.1.
Proof.
  revert here d.
  induction n as [data|data|name children IH] using node_children_ind;
    intros here d; cbn [inclusive_descendants];
    [by intros ?%elem_of_nil.. |].
  intros [->|Hd]%elem_of_cons; [done |].
  apply elem_of_numbered in Hd as (j & child & Hj & Hd).
  rewrite Forall_lookup in IH. apply (IH _ _ Hj) in Hd.
  etrans; [| exact Hd]. by apply prefix_app_r.
Qed.

Lemma descendants_below here children d :
  d ∈ descendants here children →
  ∃ j rest, d.1 = here ++ j :: rest.
Proof.
  unfold descendants.
  intros (j & child & Hj & Hd)%elem_of_numbered.
  apply inclusive_descendants_below in Hd as [rest Hd].
  exists j, rest. by rewrite Hd, <- (assoc_L (++)).
Qed.

(** What [querySelector] finds is an element of the kind asked for, at a
    place strictly below the element searched. *)
Lemma querySelector_spec selector e found :
  querySelector selector e = Some found →
  nodeName found.2 = upper selector
  ∧ ∃ j rest, found.1 = e.1 ++ j :: rest.
Proof.
  unfold querySelector. intros Hhead%head_Some_elem_of.
  apply list_elem_of_filter in Hhead as [Hsel Hd]. split.
  - unfold selects in Hsel. by apply String.eqb_eq in Hsel.
  - by apply descendants_below in Hd.
Qed.

Lemma concat_cons x l : String.concat "" (x :: l) = x +:+ String.concat "" l.
Proof. destruct l; [by rewrite append_empty_r | done]. Qed.

Lemma concat_app l1 l2 :
  String.concat "" (l1 ++ l2) = String.concat "" l1 +:+ String.concat "" l2.
Proof.
  induction l1 as [|x l1 IH]; [done |].
  rewrite <- app_comm_cons, !concat_cons, IH. by rewrite append_assoc.
Qed.

(** What a child node adds to the base text. *)
Lemma base_text_share (childNode : node) :
  (if (nodeType childNode =? TEXT_NODE)%Z
      || negb (String.eqb (nodeName childNode) "RT")
   then textContent childNode else "")
  = String.concat ""
      (textContent <$> filter (λ c, nodeName c ≠ "RT") [childNode]).
Proof.
  destruct childNode as [data|data|name children]; [done.. |].
  cbn [nodeType nodeName]. rewrite filter_cons, filter_nil.
  destruct (String.eqb_spec name "RT") as [->|Hname].
  - by rewrite decide_False by naive_solver.
  - by rewrite decide_True by done.
Qed.

Lemma getTextWithoutRuby_fold children result :
  fold_left
    (λ result childNode,
       result +:+
       (if (nodeType childNode =? TEXT_NODE)%Z
           || negb (String.eqb (nodeName childNode) "RT")
        then textContent childNode else ""))
    children result
  = result +:+ String.concat ""
                 (textContent <$> filter (λ c, nodeName c ≠ "RT") children).
Proof.
  revert result. induction children as [|child children IH]; intros result.
  - by rewrite append_empty_r.
  - cbn [fold_left]. rewrite IH, base_text_share, append_assoc. f_equal.
    change (child :: children) with ([child] ++ children).
    by rewrite filter_app, fmap_app, concat_app.
Qed.

(** X5.  The base text of a ruby element is the text of its child nodes
    that are not [rt] elements, in order: text nodes, comments and all other
    elements count, with everything they hold.  So an [rt] child may be
    added, removed or changed without changing the base text. *)
Theorem getTextWithoutRuby_skips_readings :
  (∀ rubyElement,
     getTextWithoutRuby rubyElement
     = String.concat ""
         (textContent
            <$> filter (λ c, nodeName c ≠ "RT") (childNodes rubyElement)))
  ∧ (∀ name before reading after,
       getTextWithoutRuby
         (Element name (before ++ Element "RT" reading :: after))
       = getTextWithoutRuby (Element name (before ++ after))).
Proof.
  assert (∀ rubyElement,
            getTextWithoutRuby rubyElement
            = String.concat ""
                (textContent
                   <$> filter (λ c, nodeName c ≠ "RT")
                         (childNodes rubyElement))) as Hbase.
  { intros rubyElement. unfold getTextWithoutRuby.
    by rewrite getTextWithoutRuby_fold. }
  split; [done |]. intros name before reading after.
  rewrite !Hbase. cbn [childNodes].
  rewrite !filter_app, filter_cons. cbn [nodeName].
  by rewrite decide_False by naive_solver.
Qed.

(** What a walk leaves: the readings found for the elements processed,
    which are all the elements up to the first on which the callback
    throws. *)
Lemma forEach_processed knownVocab (elements : list element) visibility :
  ∃ processed rest,
    elements = processed ++ rest
    ∧ (forEach (hideFoundWord knownVocab) elements visibility).2
      = hide_all (omap (hidden_reading knownVocab) processed) visibility.
Proof.
  destruct (first_throw knownVocab elements)
    as [Hall|(before & e & after & -> & Hb & He)].
  - exists elements, []. rewrite app_nil_r. by rewrite forEach_hides.
  - exists before, (e :: after). by rewrite forEach_throws.
Qed.

Lemma forEach_normal knownVocab (elements : list element) visibility :
  (forEach (hideFoundWord knownVocab) elements visibility).1 = Normal ↔
  Forall (λ e, throws_on knownVocab e = false) elements.
Proof.
  split.
  - intros Hrun.
    destruct (first_throw knownVocab elements)
      as [Hall|(before & e & after & -> & Hb & He)]; [done |].
    by rewrite forEach_throws in Hrun.
  - intros Hall. by rewrite forEach_hides.
Qed.

(** X6.  Whether it returns or throws, [findRubyInPage] changes the style
    of an element only by marking it hidden, and only if the element is an
    [rt] element found strictly below a ruby element of the document whose
    base text is known: no other element is touched, and nothing hidden
    becomes visible. *)
Theorem findRubyInPage_changes_only_readings knownVocab document visibility
    place :
  (findRubyInPage knownVocab document visibility).2 !! place
  = visibility !! place
  ∨ ((findRubyInPage knownVocab document visibility).2 !! place
     = Some "hidden"
     ∧ ∃ e rubyText,
         e ∈ querySelectorAll "ruby" document
         ∧ has knownVocab (getTextWithoutRuby e.2) = true
         ∧ querySelector "rt" e = Some rubyText
         ∧ rubyText.1 = place
         ∧ nodeName rubyText.2 = "RT"
         ∧ ∃ j rest, place = e.1 ++ j :: rest).
Proof.
  unfold findRubyInPage.
  destruct (forEach_processed knownVocab (querySelectorAll "ruby" document)
              visibility) as (processed & rest & Heq & ->).
  rewrite lookup_hide_all. case_bool_decide as Hin; [| by left].
  right. split; [done |].
  apply elem_of_hidden_readings in Hin
    as (e & rubyText & He & Hknown & Hq & Hplace).
  exists e, rubyText. split_and!; [| done.. | |].
  - rewrite Heq. apply elem_of_app. by left.
  - by apply querySelector_spec in Hq as [Hname _].
  - apply querySelector_spec in Hq as [_ (j & tail & Hpath)].
    exists j, tail. by rewrite <- Hplace.
Qed.

(** X7.  Where no ruby element of the document has a known base text, and
    so also where nothing is known, [findRubyInPage] returns and leaves
    every style as it was, whether or not the elements have readings. *)
Theorem findRubyInPage_nothing_known knownVocab document visibility :
  (∀ e, e ∈ querySelectorAll "ruby" document →
        has knownVocab (getTextWithoutRuby e.2) = false) →
  findRubyInPage knownVocab document visibility = (Normal, visibility).
Proof.
  intros Hnone. unfold findRubyInPage. rewrite forEach_hides.
  - f_equal. apply map_eq. intros place.
    rewrite lookup_hide_all, bool_decide_eq_false_2; [done |].
    intros (e & rubyText & He & Hknown & _)%elem_of_hidden_readings.
    by rewrite (Hnone e He) in Hknown.
  - apply Forall_forall. intros e He. unfold throws_on.
    by rewrite (Hnone e He).
Qed.

Lemma findRubyInPage_nothing_known_witness :
  findRubyInPage ∅ missing_reading ∅ = (Normal, ∅).
Proof. apply findRubyInPage_nothing_known. by intros e _. Defined.

(** X8.  Knowing more words never shows a reading again: if the walk
    returns for a set of known words, it returns for every smaller set, and
    every element hidden for the smaller set is hidden for the larger. *)
Theorem findRubyInPage_monotone knownVocab knownVocab' document visibility :
  knownVocab ⊆ knownVocab' →
  (findRubyInPage knownVocab' document visibility).1 = Normal →
  (findRubyInPage knownVocab document visibility).1 = Normal
  ∧ ∀ place,
      (findRubyInPage knownVocab document visibility).2 !! place
      = Some "hidden" →
      (findRubyInPage knownVocab' document visibility).2 !! place
      = Some "hidden".
Proof.
  intros Hsub Hrun. unfold findRubyInPage in *.
  assert (∀ e : element,
            has knownVocab (getTextWithoutRuby e.2) = true →
            has knownVocab' (getTextWithoutRuby e.2) = true) as Hhas.
  { intros e. unfold has. rewrite !bool_decide_eq_true. set_solver. }
  apply forEach_normal in Hrun.
  assert (Forall (λ e, throws_on knownVocab e = false)
            (querySelectorAll "ruby" document)) as Hall.
  { eapply Forall_impl; [exact Hrun |]. intros e He. cbn beta in He.
    unfold throws_on in *. destruct (has knownVocab _) eqn:Hk; [| done].
    by rewrite (Hhas e Hk) in He. }
  split; [by apply forEach_normal |].
  intros place. rewrite !forEach_hides by done. cbn [snd].
  rewrite !lookup_hide_all. case_bool_decide as Hin; [| by case_bool_decide].
  intros _. rewrite bool_decide_eq_true_2; [done |].
  apply elem_of_hidden_readings in Hin
    as (e & rubyText & He & Hknown & Hq & Hplace).
  apply elem_of_hidden_readings. exists e, rubyText. auto.
Qed.

Lemma findRubyInPage_monotone_witness :
  (findRubyInPage {[ "東京" ]} two_readings ∅).1 = Normal
  ∧ ∀ place,
      (findRubyInPage {[ "東京" ]} two_readings ∅).2 !! place
      = Some "hidden" →
      (findRubyInPage {[ "東京"; "日本語" ]} two_readings ∅).2 !! place
      = Some "hidden".
Proof.
  apply findRubyInPage_monotone; [set_solver | by vm_compute].
Defined.

End DomMore.

(** ** The subject resolver and its pagination loops *)

Section WaniKaniMore.
Import WaniKani.
Variable decodeURIComponent : string → string.
Variable apiToken : string.

Ltac cursor_cases jsonData :=
  let u := fresh "u" in
  destruct (next_url jsonData) as [u|]; [destruct (truthy u) |].

(** Whatever the network answers, one turn after the other of the inner
    loop keeps the words it was given, takes its responses from the front
    of the feed, and sends one request, with the token, for each response
    taken, and one more when it is left waiting. *)
Lemma lookupVocab_loop_invariants feed nextPage vocabSet log :
  ∃ used later,
    let run :=
      lookupVocab_loop decodeURIComponent apiToken feed nextPage vocabSet log
    in
    vocabSet ⊆ run.1.1.2
    ∧ feed = used ++ run.1.2
    ∧ run.2 = log ++ later
    ∧ Forall (λ r, authorization r = "Bearer " +:+ apiToken) later
    ∧ length later
      = length used + (if run.1.1.1 is Pending then 1 else 0).
Proof.
  revert nextPage vocabSet log.
  induction feed as [|[|jsonData] feed IH]; intros nextPage vocabSet log;
    cbn [lookupVocab_loop].
  - exists [], [apiEndpoint decodeURIComponent apiToken nextPage].
    cbn. split_and!; [done.. | by repeat constructor | done].
  - exists [FetchRejected],
      [apiEndpoint decodeURIComponent apiToken nextPage].
    cbn. split_and!; [done.. | by repeat constructor | done].
  - rewrite (addVocabFromSubjects_union decodeURIComponent).
    cursor_cases jsonData.
    + destruct (IH u (vocabSet ∪ list_to_set (slug <$> data jsonData))
                  (log ++ [apiEndpoint decodeURIComponent apiToken nextPage]))
        as (used & later & Hsub & Hfeed & Hlog & Hauth & Hlen).
      cbn zeta in *.
      exists (Body jsonData :: used),
        (apiEndpoint decodeURIComponent apiToken nextPage :: later).
      split_and!.
      * set_solver.
      * by rewrite <- app_comm_cons, <- Hfeed.
      * by rewrite Hlog, <- (assoc_L (++)).
      * by constructor.
      * cbn [length]. by rewrite Hlen.
    + exists [Body jsonData],
        [apiEndpoint decodeURIComponent apiToken nextPage].
      cbn. split_and!; [set_solver | done.. | by repeat constructor | done].
    + exists [Body jsonData],
        [apiEndpoint decodeURIComponent apiToken nextPage].
      cbn. split_and!; [set_solver | done.. | by repeat constructor | done].
Qed.

Lemma lookupVocab_invariants subjectIds vocabSet net :
  ∃ used later,
    let run :=
      lookupVocab decodeURIComponent apiToken subjectIds vocabSet net in
    vocabSet ⊆ run.1.2
    ∧ assignments_feed run.2 = assignments_feed net
    ∧ subjects_feed net = used ++ subjects_feed run.2
    ∧ sent run.2 = sent net ++ later
    ∧ Forall (λ r, authorization r = "Bearer " +:+ apiToken) later
    ∧ length later = length used + (if run.1.1 is Pending then 1 else 0).
Proof.
  unfold lookupVocab.
  destruct (lookupVocab_loop_invariants (subjects_feed net)
              (subjects_url subjectIds) vocabSet (sent net))
    as (used & later & H).
  exists used, later. cbn zeta in *.
  destruct (lookupVocab_loop _ _ _ _ _ _) as [[[p vocabSet'] feed'] log'].
  cbn [fst snd assignments_feed subjects_feed sent] in *.
  destruct H as (? & ? & ? & ? & ?). done.
Qed.

Lemma getAssignments_loop_invariants feed nextPage knownVocab subjects log :
  ∃ usedA usedS later,
    let run :=
      getAssignments_loop decodeURIComponent apiToken feed nextPage
        knownVocab subjects log in
    knownVocab ⊆ run.1.2
    ∧ feed = usedA ++ assignments_feed run.2
    ∧ subjects = usedS ++ subjects_feed run.2
    ∧ sent run.2 = log ++ later
    ∧ Forall (λ r, authorization r = "Bearer " +:+ apiToken) later
    ∧ length later
      = length usedA + length usedS
        + (if run.1.1 is Pending then 1 else 0).
Proof.
  revert nextPage knownVocab subjects log.
  induction feed as [|[|jsonData] feed IH];
    intros nextPage knownVocab subjects log; cbn [getAssignments_loop].
  - exists [], [], [apiEndpoint decodeURIComponent apiToken nextPage].
    cbn. split_and!; [done.. | by repeat constructor | done].
  - exists [FetchRejected], [],
      [apiEndpoint decodeURIComponent apiToken nextPage].
    cbn. split_and!; [done.. | by repeat constructor | done].
  - destruct (lookupVocab_invariants (lookupSubjectIds jsonData []) knownVocab
                (Network feed subjects
                   (log ++ [apiEndpoint decodeURIComponent apiToken nextPage])))
      as (usedS & later & H).
    cbn zeta in H.
    destruct (lookupVocab _ _ _ _ _) as [[p knownVocab'] net'].
    cbn [fst snd assignments_feed subjects_feed sent] in H.
    destruct H as (Hsub & HfeedA & HfeedS & Hlog & Hauth & Hlen).
    assert (Forall (λ r, authorization r = "Bearer " +:+ apiToken)
              (apiEndpoint decodeURIComponent apiToken nextPage :: later))
      as Hauth' by by constructor.
    destruct p as [[]| |].
    + cursor_cases jsonData.
      * destruct (IH u knownVocab' (subjects_feed net') (sent net'))
          as (usedA & usedS' & later' & IH').
        cbn zeta in IH'.
        destruct IH' as (Hsub' & HfeedA' & HfeedS' & Hlog' & Hauth'' & Hlen').
        exists (Body jsonData :: usedA), (usedS ++ usedS'),
          (apiEndpoint decodeURIComponent apiToken nextPage
             :: later ++ later').
        cbn zeta. split_and!.
        -- set_solver.
        -- by rewrite <- app_comm_cons, <- HfeedA'.
        -- by rewrite <- (assoc_L (++)), <- HfeedS'.
        -- by rewrite Hlog', Hlog, <- !(assoc_L (++)).
        -- constructor; [done |]. by apply Forall_app.
        -- cbn [length]. rewrite !length_app, Hlen', Hlen. cbn. lia.
      * exists [Body jsonData], usedS,
          (apiEndpoint decodeURIComponent apiToken nextPage :: later).
        cbn. split_and!; [done | by rewrite HfeedA | done | | done |].
        -- by rewrite Hlog, <- (assoc_L (++)).
        -- cbn in Hlen. lia.
      * exists [Body jsonData], usedS,
          (apiEndpoint decodeURIComponent apiToken nextPage :: later).
        cbn. split_and!; [done | by rewrite HfeedA | done | | done |].
        -- by rewrite Hlog, <- (assoc_L (++)).
        -- cbn in Hlen. lia.
    + exists [Body jsonData], usedS,
        (apiEndpoint decodeURIComponent apiToken nextPage :: later).
      cbn. split_and!; [done | by rewrite HfeedA | done | | done |].
      * by rewrite Hlog, <- (assoc_L (++)).
      * cbn in Hlen. lia.
    + exists [Body jsonData], usedS,
        (apiEndpoint decodeURIComponent apiToken nextPage :: later).
      cbn. split_and!; [done | by rewrite HfeedA | done | | done |].
      * by rewrite Hlog, <- (assoc_L (++)).
      * cbn in Hlen. lia.
Qed.

(** X9.  Whatever the network answers and however the call ends,
    [getAssignments] loses no word of the set it is given and keeps the
    requests already logged, and every request that it adds is built with
    the token after the word [Bearer]. *)
Theorem getAssignments_keeps_words_and_token knownVocab net :
  knownVocab
    ⊆ (getAssignments decodeURIComponent apiToken knownVocab net).1.2
  ∧ ∃ later,
      sent (getAssignments decodeURIComponent apiToken knownVocab net).2
      = sent net ++ later
      ∧ Forall (λ r, authorization r = "Bearer " +:+ apiToken) later.
Proof.
  unfold getAssignments.
  destruct (getAssignments_loop_invariants (assignments_feed net)
              assignments_url knownVocab (subjects_feed net) (sent net))
    as (usedA & usedS & later & Hsub & _ & _ & Hlog & Hauth & _).
  cbn zeta in *. split; [done |]. by exists later.
Qed.

(** X10.  Whatever the network answers, [getAssignments] takes its
    responses in the order served, and has sent exactly one request for
    each response taken, and one more if it is left waiting for a response
    that does not come. *)
Theorem getAssignments_one_request_per_response knownVocab net :
  ∃ usedA usedS later,
    assignments_feed net
    = usedA
      ++ assignments_feed
           (getAssignments decodeURIComponent apiToken knownVocab net).2
    ∧ subjects_feed net
      = usedS
        ++ subjects_feed
             (getAssignments decodeURIComponent apiToken knownVocab net).2
    ∧ sent (getAssignments decodeURIComponent apiToken knownVocab net).2
      = sent net ++ later
    ∧ length later
      = length usedA + length usedS
        + (if (getAssignments decodeURIComponent apiToken knownVocab net).1.1
           is Pending then 1 else 0).
Proof.
  unfold getAssignments.
  destruct (getAssignments_loop_invariants (assignments_feed net)
              assignments_url knownVocab (subjects_feed net) (sent net))
    as (usedA & usedS & later & _ & HA & HS & Hlog & _ & Hlen).
  by exists usedA, usedS, later.
Qed.

(** The inner loop over pages that all name a next page, followed by a
    rejected fetch or by no response at all. *)
Lemma lookupVocab_loop_unfinished pages ending nextPage vocabSet log :
  Forall (λ p : collection subject, more_pages p = true) pages →
  ending = [] ∨ (∃ rest, ending = FetchRejected :: rest) →
  lookupVocab_loop decodeURIComponent apiToken ((Body <$> pages) ++ ending)
    nextPage vocabSet log
  = (if ending is [] then Pending else Rejected,
     vocabSet ∪ all_slugs pages, tail ending,
     log ++ apiEndpoint decodeURIComponent apiToken nextPage
         :: follow_ups decodeURIComponent apiToken pages).
Proof.
  intros Hall Hending. revert nextPage vocabSet log.
  induction Hall as [|p pages Hp _ IH]; intros nextPage vocabSet log.
  - assert (all_slugs [] = ∅) as -> by done. rewrite (right_id_L ∅ (∪)).
    by destruct Hending as [->|[rest ->]].
  - cbn [fmap list_fmap app lookupVocab_loop].
    rewrite (addVocabFromSubjects_union decodeURIComponent), all_slugs_cons.
    unfold follow_ups. cbn [omap list_omap]. unfold more_pages in Hp.
    destruct (next_url p) as [u|]; [| done]. rewrite Hp, IH.
    by rewrite (assoc_L (∪)), <- (assoc_L (++)).
Qed.


(** X12.  The loops have no bound of their own: while every page received
    names a next page, [lookupVocab] asks for it, so that after any number
    of such pages it has sent one request more than it has received pages
    and has not returned. *)
Theorem lookupVocab_follows_every_cursor pages subjectIds vocabSet feed log :
  Forall (λ p : collection subject, more_pages p = true) pages →
  lookupVocab decodeURIComponent apiToken subjectIds vocabSet
    (Network feed (Body <$> pages) log)
  = (Pending, vocabSet ∪ all_slugs pages,
     Network feed []
       (log ++ subject_requests decodeURIComponent apiToken subjectIds pages))
  ∧ length (subject_requests decodeURIComponent apiToken subjectIds pages)
    = S (length pages).
Proof.
  intros Hall. split.
  - unfold lookupVocab. cbn [subjects_feed sent assignments_feed].
    rewrite <- (app_nil_r (Body <$> pages)).
    rewrite lookupVocab_loop_unfinished; [done | done | by left].
  - unfold subject_requests, follow_ups. cbn [length]. f_equal.
    induction Hall as [|p pages Hp _ IH]; [done |].
    cbn [omap list_omap]. unfold more_pages in Hp.
    destruct (next_url p) as [u|]; [| done]. rewrite Hp. cbn [length].
    by rewrite IH.
Qed.

(** X14.  A page of assignments without records is looked up like any
    other: the request for its subjects is sent with no identifier after
    [ids=]. *)
Theorem empty_page_is_looked_up page feed nextPage knownVocab subjects log :
  data page = [] →
  ∃ later,
    sent (getAssignments_loop decodeURIComponent apiToken
            (Body page :: feed) nextPage knownVocab subjects log).2
    = log ++ apiEndpoint decodeURIComponent apiToken nextPage
          :: apiEndpoint decodeURIComponent apiToken
               "https://api.wanikani.com/v2/subjects?ids="
          :: later.
Proof.
  intros Hdata.
  destruct (getAssignments_loop_lookup decodeURIComponent apiToken page feed
              nextPage knownVocab subjects log) as [later H].
  exists later. rewrite H. unfold lookupSubjectIds. by rewrite Hdata.
Qed.

End WaniKaniMore.

Section WaniKaniOrder.
Import WaniKani.

Lemma elem_of_Set_add_fold (records : list assignment) x :
  x ∈ fold_left (λ ids val, Set_add (subject_id val) ids) records []
  ↔ x ∈ subject_id <$> records.
Proof.
  induction records as [|val records IH] using rev_ind.
  - done.
  - rewrite fold_left_app, fmap_app, elem_of_app. cbn [fold_left].
    unfold Set_add at 1. case_bool_decide as Hin.
    + rewrite IH. cbn [fmap list_fmap]. rewrite list_elem_of_singleton.
      split; [by left |]. intros [? | ->]; [done | by apply IH].
    + rewrite elem_of_app, IH. done.
Qed.

Lemma lookupSubjectIds_order (page : collection assignment) :
  lookupSubjectIds page []
  = reverse (remove_dups (reverse (subject_id <$> data page))).
Proof.
  unfold lookupSubjectIds.
  induction (data page) as [|val records IH] using rev_ind; [done |].
  rewrite fold_left_app, fmap_app, reverse_app. cbn [fold_left].
  cbn [fmap list_fmap reverse rev_append app].
  change (rev_append [] [subject_id val]) with [subject_id val].
  cbn [app remove_dups].
  pose proof (elem_of_Set_add_fold records (subject_id val)) as Hfold.
  set (ids := fold_left _ records []) in *. unfold Set_add.
  destruct (decide_rel elem_of (subject_id val)
              (reverse (subject_id <$> records))) as [Hin|Hin];
    rewrite elem_of_reverse in Hin.
  - rewrite bool_decide_eq_true_2; [done | by apply Hfold].
  - rewrite bool_decide_eq_false_2; [by rewrite reverse_cons, IH |].
    by intros ?%Hfold.
Qed.

(** X13.  The identifiers that [lookupSubjectIds] draws from a page are
    those of its records in the order of the records, each at the place of
    its first record: this is the order in which the request for the
    subjects lists them.  The request that [getAssignments] sends once it
    has received the page asks for
    [https://api.wanikani.com/v2/subjects?ids=] followed by these
    identifiers in that order, with commas between them. *)
Theorem lookupSubjectIds_first_occurrences (page : collection assignment) :
  lookupSubjectIds page []
  = reverse (remove_dups (reverse (subject_id <$> data page)))
  ∧ ∀ (decodeURIComponent : string → string) apiToken feed nextPage
      knownVocab subjects log,
      ∃ later,
        sent (getAssignments_loop decodeURIComponent apiToken
                (Body page :: feed) nextPage knownVocab subjects log).2
        = log ++ Request (decodeURIComponent nextPage)
                   ("Bearer " +:+ apiToken)
              :: Request
                   (decodeURIComponent
                      ("https://api.wanikani.com/v2/subjects?ids=" +:+
                       String.concat ","
                         (number_to_string
                            <$> reverse
                                  (remove_dups
                                     (reverse (subject_id <$> data page))))))
                   ("Bearer " +:+ apiToken)
              :: later.
Proof.
  split; [apply lookupSubjectIds_order |].
  intros decodeURIComponent apiToken feed nextPage knownVocab subjects log.
  destruct (getAssignments_loop_lookup decodeURIComponent apiToken page feed
              nextPage knownVocab subjects log) as [later H].
  exists later. rewrite H, lookupSubjectIds_order. reflexivity.
Qed.

(** A page on which two subjects come twice. *)
Lemma repeated_subjects_requested_once :
  sent (getAssignments (λ s, s) "token" ∅
          (Network
             [Body (Collection
                      [Assignment 440 "kanji" 5; Assignment 8 "kanji" 6;
                       Assignment 440 "kanji" 5;
                       Assignment 2467 "vocabulary" 7;
                       Assignment 8 "kanji" 6]
                      None)]
             [] [])).2
  = [Request
       "https://api.wanikani.com/v2/assignments?srs_stages=5,6,7,8,9&subject_types=kanji,vocabulary"
       "Bearer token";
     Request "https://api.wanikani.com/v2/subjects?ids=440,8,2467"
       "Bearer token"].
Proof. by vm_compute. Qed.

End WaniKaniOrder.

Section WaniKaniMoreExamples.
Import WaniKani.


Lemma lookupVocab_follows_every_cursor_witness :
  lookupVocab (λ s, s) "token" [440; 2467]%Z ∅
    (Network [] [Body page1; Body page1; Body page1] [])
  = (Pending, ∅ ∪ all_slugs [page1; page1; page1],
     Network [] []
       (subject_requests (λ s, s) "token" [440; 2467]%Z
          [page1; page1; page1]))
  ∧ length (subject_requests (λ s, s) "token" [440; 2467]%Z
              [page1; page1; page1]) = 4.
Proof.
  apply (lookupVocab_follows_every_cursor (λ s, s) "token"
           [page1; page1; page1] [440; 2467]%Z ∅ [] []).
  by repeat constructor.
Defined.

Lemma empty_page_is_looked_up_witness :
  ∃ later,
    sent (getAssignments_loop (λ s, s) "token"
            [Body (Collection [] None)] assignments_url ∅ [] []).2
    = [] ++ apiEndpoint (λ s, s) "token" assignments_url
         :: apiEndpoint (λ s, s) "token"
              "https://api.wanikani.com/v2/subjects?ids="
         :: later.
Proof.
  apply (empty_page_is_looked_up (λ s, s) "token" (Collection [] None)).
  reflexivity.
Defined.

End WaniKaniMoreExamples.

(** ** The credential provider *)

Section CredentialMore.
Import Credential.
Variable decodeURIComponent : string → string.

(** X15.  A non-empty answer that the validation endpoint accepts is found
    again by the next call: on the storage that the first call leaves, the
    script returns that answer without asking the reader and without
    sending a request, whatever the reader or the network would answer. *)
Theorem getApiToken_remembers store token answer' validated' :
  truthy_value (GM_getValue "WK_API_TOKEN" store) = false →
  token ≠ EmptyString →
  getApiToken decodeURIComponent
    (getApiToken decodeURIComponent store (Some token) (Status true)).1.2
    answer' validated'
  = (Fulfilled (str token),
     (getApiToken decodeURIComponent store (Some token) (Status true)).1.2,
     []).
Proof.
  intros Hstore Htoken.
  assert ((getApiToken decodeURIComponent store (Some token) (Status true)).1.2
          = <["WK_API_TOKEN" := str token]> store) as ->.
  { unfold getApiToken. by rewrite Hstore. }
  unfold getApiToken, GM_getValue.
  rewrite lookup_insert_eq. cbn [default from_option id truthy_value].
  unfold truthy. by destruct (String.eqb_spec token "").
Qed.

(** X16.  [getApiToken] reads and writes one key only: whatever the
    storage, the answer and the response, every other key holds afterwards
    what it held before, and the key of the token is written only when no
    usable token was stored and the response was a success. *)
Theorem getApiToken_writes_one_key store answer validated :
  (∀ key, key ≠ "WK_API_TOKEN" →
     (getApiToken decodeURIComponent store answer validated).1.2 !! key
     = store !! key)
  ∧ ((getApiToken decodeURIComponent store answer validated).1.2 = store
     ∨ (truthy_value (GM_getValue "WK_API_TOKEN" store) = false
        ∧ validated = Status true
        ∧ (getApiToken decodeURIComponent store answer validated).1.2
          = <["WK_API_TOKEN" := prompt answer]> store)).
Proof.
  unfold getApiToken.
  destruct (truthy_value (GM_getValue "WK_API_TOKEN" store)) eqn:Hstore;
    [by split; [| left] |].
  destruct validated as [|[|]]; cbn [fst snd]; [by split; [| left] | |
    by split; [| left]].
  split; [| by right].
  intros key Hkey. unfold GM_setValue. by rewrite lookup_insert_ne.
Qed.

(** X17.  Whenever [getApiToken] resolves to a usable token, a truthy
    value, that token is what the storage holds afterwards: the script never
    runs on a token that the next page load would not find. *)
Theorem getApiToken_usable_token_is_stored store answer validated token :
  (getApiToken decodeURIComponent store answer validated).1.1
  = Fulfilled token →
  truthy_value token = true →
  GM_getValue "WK_API_TOKEN"
    (getApiToken decodeURIComponent store answer validated).1.2
  = token.
Proof.
  unfold getApiToken.
  destruct (truthy_value (GM_getValue "WK_API_TOKEN" store)) eqn:Hstore;
    cbn [fst snd].
  - by intros [= <-].
  - destruct validated as [|[|]]; cbn [fst snd]; [done | |].
    + intros [= <-] _. unfold GM_getValue, GM_setValue.
      by rewrite lookup_insert_eq.
    + by intros [= <-].
Qed.

End CredentialMore.

Section CredentialMoreExamples.
Import Credential.

Lemma getApiToken_remembers_witness :
  getApiToken (λ s, s)
    (getApiToken (λ s, s) ∅ (Some "token") (Status true)).1.2
    None ValidationUnreachable
  = (Fulfilled (str "token"),
     (getApiToken (λ s, s) ∅ (Some "token") (Status true)).1.2, []).
Proof.
  apply (getApiToken_remembers (λ s, s) ∅ "token" None ValidationUnreachable).
  - reflexivity.
  - discriminate.
Defined.

Lemma getApiToken_writes_one_key_witness :
  (getApiToken (λ s, s) {[ "other" := str "kept" ]} (Some "token")
     (Status true)).1.2 !! "other"
  = Some (str "kept").
Proof.
  destruct (getApiToken_writes_one_key (λ s, s) {[ "other" := str "kept" ]}
              (Some "token") (Status true)) as [Hframe _].
  rewrite Hframe; [reflexivity | discriminate].
Defined.

Lemma getApiToken_usable_token_is_stored_witness :
  GM_getValue "WK_API_TOKEN"
    (getApiToken (λ s, s) ∅ (Some "token") (Status true)).1.2
  = str "token".
Proof.
  apply (getApiToken_usable_token_is_stored (λ s, s) ∅ (Some "token")
           (Status true) (str "token")); reflexivity.
Defined.

End CredentialMoreExamples.

(** ** The update of the page *)

Section ScriptMore.
Import Dictionary Dom WaniKani Credential Script.
Variable decodeURIComponent : string → string.

(** The ways a run of [handleUpdatingPage] can go. *)
Ltac run_cases b :=
  unfold handleUpdatingPage;
  destruct (getApiToken decodeURIComponent (store b) (answer b) (validated b))
    as [[[apiToken| |] store'] shown] eqn:Htoken; cbn [fst snd];
  [destruct (truthy_value apiToken) eqn:Husable; cbn [negb];
   [destruct (getAssignments decodeURIComponent (to_string apiToken) ∅ (net b))
      as [[[[]| |] knownVocab] net'] eqn:Hwords;
    [destruct (findRubyInPage knownVocab (document b) (visibility b))
       as [[|] visibility'] eqn:Hwalk | |] |] | |];
  cbn [fst snd store answer validated net document visibility g_dic effects
       alerts].

Lemma stored_token_resolves (b : browser) token :
  store b !! "WK_API_TOKEN" = Some (str token) → token ≠ EmptyString →
  getApiToken decodeURIComponent (store b) (answer b) (validated b)
  = (Fulfilled (str token), store b, [])
  ∧ truthy_value (str token) = true.
Proof.
  intros Hstore Htoken. unfold getApiToken, GM_getValue. rewrite Hstore.
  cbn [default from_option id truthy_value]. unfold truthy.
  by destruct (String.eqb_spec token "").
Qed.

Lemma walk_throws knownVocab doc styles (e : element) :
  e ∈ querySelectorAll "ruby" doc →
  has knownVocab (getTextWithoutRuby e.2) = true →
  querySelector "rt" e = None →
  (findRubyInPage knownVocab doc styles).1 = TypeError.
Proof.
  intros He Hknown Hq.
  destruct (findRubyInPage knownVocab doc styles).1 eqn:Hrun; [| done].
  apply forEach_normal in Hrun. rewrite Forall_forall in Hrun.
  specialize (Hrun e He). unfold throws_on in Hrun.
  by rewrite Hknown, bool_decide_eq_true_2 in Hrun.
Qed.

(** X18.  A run shows at most one alert, with the notice of the invalid
    token, and it shows it exactly when the credential provider resolved to
    no usable token; the run then ends there: the network of the resolver,
    the styles of the document and the dictionary are as they were. *)
Theorem handleUpdatingPage_alert_or_update b :
  (alerts (handleUpdatingPage decodeURIComponent b).2 = alerts b
   ∧ ∀ token,
       (getApiToken decodeURIComponent (store b) (answer b) (validated b)).1.1
       = Fulfilled token → truthy_value token = true)
  ∨ (alerts (handleUpdatingPage decodeURIComponent b).2
     = alerts b ++ [invalid_token_notice]
     ∧ (∃ token,
          (getApiToken decodeURIComponent (store b) (answer b)
             (validated b)).1.1 = Fulfilled token
          ∧ truthy_value token = false)
     ∧ (handleUpdatingPage decodeURIComponent b).1 = Fulfilled ()
     ∧ net (handleUpdatingPage decodeURIComponent b).2 = net b
     ∧ visibility (handleUpdatingPage decodeURIComponent b).2 = visibility b
     ∧ g_dic (handleUpdatingPage decodeURIComponent b).2 = g_dic b).
Proof.
  run_cases b; try (left; split; [done |]; by intros token [= <-]).
  right. split_and!; try done. by exists apiToken.
Qed.

(** X19.  The dictionary is rewritten only by a run that fulfils, and the
    styles of the document are touched only once the whole vocabulary has
    been received: a rejected or pending run leaves the dictionary and shows
    no alert, and a pending run leaves the styles. *)
Theorem handleUpdatingPage_unfinished b :
  ((handleUpdatingPage decodeURIComponent b).1 ≠ Fulfilled () →
   g_dic (handleUpdatingPage decodeURIComponent b).2 = g_dic b
   ∧ alerts (handleUpdatingPage decodeURIComponent b).2 = alerts b)
  ∧ ((handleUpdatingPage decodeURIComponent b).1 = Pending →
     visibility (handleUpdatingPage decodeURIComponent b).2 = visibility b).
Proof. run_cases b; by split. Qed.

(** X20.  A page load with a stored token, served linked pages: the run
    asks neither the reader nor the validation endpoint, gathers the slugs
    of all the pages of subjects, hides the first reading of every ruby
    element whose base text is among them, and rewrites the dictionary, if
    the page has one, for the same words; provided every such ruby element
    has a reading. *)
Theorem handleUpdatingPage_updates b token (rounds : list round) restA restS
    log :
  store b !! "WK_API_TOKEN" = Some (str token) → token ≠ EmptyString →
  net b
  = Network ((Body <$> (fst <$> rounds)) ++ restA)
      ((Body <$> (rounds ≫= snd)) ++ restS) log →
  linked (fst <$> rounds) = true →
  Forall (λ r : round, linked r.2 = true) rounds →
  (∀ e, e ∈ querySelectorAll "ruby" (document b) →
        has (all_slugs (rounds ≫= snd)) (getTextWithoutRuby e.2) = true →
        is_Some (querySelector "rt" e)) →
  handleUpdatingPage decodeURIComponent b
  = (Fulfilled (),
     Browser (store b) (answer b) (validated b)
       (Network restA restS
          (log ++ assignment_requests decodeURIComponent token
                    assignments_url rounds))
       (document b)
       (hide_all
          (omap (hidden_reading (all_slugs (rounds ≫= snd)))
             (querySelectorAll "ruby" (document b)))
          (visibility b))
       (findRubyInDictionary (all_slugs (rounds ≫= snd)) <$> g_dic b)
       (effects b) (alerts b)).
Proof.
  intros Hstore Htoken Hnet Hl Hall Hreadings. unfold handleUpdatingPage.
  destruct (stored_token_resolves b token Hstore Htoken) as [-> ->].
  cbn [negb to_string]. rewrite Hnet. unfold getAssignments.
  cbn [assignments_feed subjects_feed sent].
  rewrite getAssignments_loop_rounds by done.
  rewrite (left_id_L ∅ (∪)). unfold findRubyInPage.
  rewrite forEach_hides.
  - by rewrite app_nil_r.
  - apply Forall_forall. intros e He. apply throws_on_false.
    by apply Hreadings.
Qed.

(** X21.  When the validation endpoint cannot be reached, the run is
    rejected after the prompt, the request and the log of the error: no
    alert is shown, nothing is stored, and neither the resolver's network
    nor the page is touched. *)
Theorem handleUpdatingPage_unreachable b :
  truthy_value (GM_getValue "WK_API_TOKEN" (store b)) = false →
  validated b = ValidationUnreachable →
  handleUpdatingPage decodeURIComponent b
  = (Rejected,
     Browser (store b) (answer b) (validated b) (net b) (document b)
       (visibility b) (g_dic b)
       (effects b
          ++ [Prompted "Please enter your WaniKani API Token to continue:";
              Fetched
                (Request
                   (decodeURIComponent
                      "https://api.wanikani.com/v2/voice_actors")
                   ("Bearer " +:+ to_string (prompt (answer b))));
              Logged])
       (alerts b)).
Proof.
  intros Hstore Hvalidated. unfold handleUpdatingPage, getApiToken.
  by rewrite Hstore, Hvalidated.
Qed.

(** X22.  One ruby element with a known base text and no [rt] element
    below it is enough to leave the dictionary as it is: the run has
    received the whole vocabulary, the walk throws, the run is rejected and
    the rewrite of the dictionary is never reached. *)
Theorem handleUpdatingPage_walk_throws b token (rounds : list round) restA
    restS log e :
  store b !! "WK_API_TOKEN" = Some (str token) → token ≠ EmptyString →
  net b
  = Network ((Body <$> (fst <$> rounds)) ++ restA)
      ((Body <$> (rounds ≫= snd)) ++ restS) log →
  linked (fst <$> rounds) = true →
  Forall (λ r : round, linked r.2 = true) rounds →
  e ∈ querySelectorAll "ruby" (document b) →
  has (all_slugs (rounds ≫= snd)) (getTextWithoutRuby e.2) = true →
  querySelector "rt" e = None →
  (handleUpdatingPage decodeURIComponent b).1 = Rejected
  ∧ g_dic (handleUpdatingPage decodeURIComponent b).2 = g_dic b
  ∧ net (handleUpdatingPage decodeURIComponent b).2
    = Network restA restS
        (log ++ assignment_requests decodeURIComponent token assignments_url
                  rounds).
Proof.
  intros Hstore Htoken Hnet Hl Hall He Hknown Hq. unfold handleUpdatingPage.
  destruct (stored_token_resolves b token Hstore Htoken) as [-> ->].
  cbn [negb to_string]. rewrite Hnet. unfold getAssignments.
  cbn [assignments_feed subjects_feed sent].
  rewrite getAssignments_loop_rounds by done.
  rewrite (left_id_L ∅ (∪)).
  pose proof (walk_throws (all_slugs (rounds ≫= snd)) (document b)
                (visibility b) e He Hknown Hq) as Hrun.
  destruct (findRubyInPage _ _ _) as [[|] visibility']; [done |].
  done.
Qed.

End ScriptMore.

Section ScriptMoreExamples.
Import Dictionary Dom WaniKani Credential Script.

Lemma handleUpdatingPage_alert_or_update_witness :
  alerts (handleUpdatingPage (λ s, s) refused_reader).2
  = [invalid_token_notice]
  ∧ visibility (handleUpdatingPage (λ s, s) refused_reader).2 = ∅.
Proof.
  destruct (handleUpdatingPage_alert_or_update (λ s, s) refused_reader)
    as [[_ Husable]|(Halert & _ & _ & _ & Hstyles & _)].
  - specialize (Husable undefined eq_refl). discriminate Husable.
  - split; [exact Halert | exact Hstyles].
Defined.

Lemma handleUpdatingPage_unfinished_witness :
  g_dic (handleUpdatingPage (λ s, s) returning_reader_missing_reading).2
  = g_dic returning_reader_missing_reading
  ∧ alerts (handleUpdatingPage (λ s, s) returning_reader_missing_reading).2
    = alerts returning_reader_missing_reading.
Proof.
  apply (handleUpdatingPage_unfinished (λ s, s)
           returning_reader_missing_reading).
  by vm_compute.
Defined.

Lemma handleUpdatingPage_updates_witness :
  handleUpdatingPage (λ s, s) returning_reader
  = (Fulfilled (),
     Browser {[ "WK_API_TOKEN" := str "token" ]} None ValidationUnreachable
       (Network [] []
          (assignment_requests (λ s, s) "token" assignments_url
             [(assignments1, [page1; page2]); (assignments2, [page3])]))
       [Element "RUBY" [Text "明日"; Element "RT" [Text "あした"]]]
       {[ [0; 1] := "hidden" ]}
       (Some {[ "BE-1" :=
                  [EntryValues
                     "明日の<ruby><rb>朝</rb><rt>あさ</rt></ruby>" []] ]})
       [] []).
Proof.
  etrans.
  - apply (handleUpdatingPage_updates (λ s, s) returning_reader "token"
             [(assignments1, [page1; page2]); (assignments2, [page3])]
             [] [] []).
    + reflexivity.
    + discriminate.
    + reflexivity.
    + reflexivity.
    + by repeat constructor.
    + intros e He _. vm_compute in He.
      apply elem_of_cons in He as [->|He];
        [eexists; vm_compute; reflexivity |].
      by apply elem_of_nil in He.
  - by vm_compute.
Defined.

Lemma handleUpdatingPage_unreachable_witness :
  handleUpdatingPage (λ s, s) offline_reader
  = (Rejected,
     Browser ∅ (Some "token") ValidationUnreachable (net returning_reader)
       (document returning_reader) ∅ (g_dic returning_reader)
       [Prompted "Please enter your WaniKani API Token to continue:";
        Fetched (Request "https://api.wanikani.com/v2/voice_actors"
                   "Bearer token");
        Logged]
       []).
Proof.
  apply (handleUpdatingPage_unreachable (λ s, s) offline_reader); reflexivity.
Defined.

Lemma handleUpdatingPage_walk_throws_witness :
  (handleUpdatingPage (λ s, s) returning_reader_missing_reading).1 = Rejected
  ∧ g_dic (handleUpdatingPage (λ s, s) returning_reader_missing_reading).2
    = g_dic returning_reader_missing_reading
  ∧ net (handleUpdatingPage (λ s, s) returning_reader_missing_reading).2
    = Network [] []
        ([] ++ assignment_requests (λ s, s) "token" assignments_url
                 [(assignments1, [page1; page2]); (assignments2, [page3])]).
Proof.
  apply (handleUpdatingPage_walk_throws (λ s, s)
           returning_reader_missing_reading "token"
           [(assignments1, [page1; page2]); (assignments2, [page3])]
           [] [] [] ([0], Element "RUBY" [Text "日本語"])).
  - reflexivity.
  - discriminate.
  - reflexivity.
  - reflexivity.
  - by repeat constructor.
  - vm_compute. left.
  - by vm_compute.
  - by vm_compute.
Defined.

(** A refused answer: one alert, and the page is left as it is. *)
Lemma handleUpdatingPage_refused :
  handleUpdatingPage (λ s, s) refused_reader
  = (Fulfilled (),
     Browser ∅ (Some "wrong") (Status false) (net returning_reader)
       (document returning_reader) ∅ (g_dic returning_reader)
       [Prompted "Please enter your WaniKani API Token to continue:";
        Fetched (Request "https://api.wanikani.com/v2/voice_actors"
                   "Bearer wrong")]
       [invalid_token_notice]).
Proof. reflexivity. Qed.

End ScriptMoreExamples.
